(** * Citation resolution pipeline of [py/shared/utils/base_utils.py]

    A shallow embedding of the bracket scanner, the reference renumberer,
    the two source mappers, the two pipelines, the collector reordering,
    the stream renderer, the version helpers, the dictionary merge and the
    identifier generators, followed by the properties proved about them.

    Conventions of the embedding.
    - A scanned Python [str] is a [list ascii] of code points below 256;
      offsets are positions in that list.  [\d] and [str.isspace] are taken
      on that range.  Other strings (type tags, identifiers, rendered
      output) are [string].
    - Python [int] is [Z]; [int(digits)] is unbounded (the interpreter's
      optional limit on the number of digits is not part of the model).
      Offsets produced by the scanner are [nat] and are injected into [Z]
      when stored in a citation.
    - A computation that can raise returns an [option]: [None] stands for
      the raised exception (IndexError, KeyError, AttributeError,
      ValueError).
    - A [dict] is a [gmap], or an association list in insertion order
      where the order of the keys is part of the result ([deep_update]);
      free-form values are [PyVal]. *)

From Stdlib Require Import ZArith NArith QArith.QArith_base Ascii String List Sorted Lia.
From stdpp Require Import base option list gmap strings.

Local Open Scope Z_scope.
Local Open Scope nat_scope.

(** ** Characters *)

Definition chr (s : string) : list ascii := list_ascii_of_string s.

(** [\d] of the [re] module on code points below 256. *)
Definition is_digit (c : ascii) : bool :=
  let n := N_of_ascii c in (48 <=? n)%N && (n <=? 57)%N.

(** [str.isspace] on code points below 256: TAB..CR, FS..US, SPACE, NEL
    and NBSP. *)
Definition isspace (c : ascii) : bool :=
  let n := N_of_ascii c in
  ((9 <=? n)%N && (n <=? 13)%N) || ((28 <=? n)%N && (n <=? 32)%N)
  || (n =? 133)%N || (n =? 160)%N.

(** [sentence_enders = {".", "?", "!"}]. *)
Definition sentence_enders : list ascii := ["."; "?"; "!"]%char.

Definition is_ender (c : ascii) : bool := bool_decide (c ∈ sentence_enders).

Definition lbracket : ascii := "["%char.
Definition rbracket : ascii := "]"%char.

(** ** [int(str)] and [str(int)] on decimal numerals *)

Definition digit_of (c : ascii) : N := (N_of_ascii c - 48)%N.

Definition char_of_digit (d : N) : ascii := ascii_of_N (48 + d).

(** [int(ds)] for a string of decimal digits. *)
Definition int_of_digits (ds : list ascii) : N :=
  fold_left (fun acc c => (10 * acc + digit_of c)%N) ds 0%N.

(** Least significant digit first; [fuel] bounds the number of digits. *)
Fixpoint digits_le (fuel : nat) (n : N) : list ascii :=
  match fuel with
  | O => []
  | S f =>
      char_of_digit (n mod 10)
        :: (if (n <? 10)%N then [] else digits_le f (n / 10))
  end.

Definition str_of_N (n : N) : list ascii :=
  rev (digits_le (S (N.to_nat (N.log2 n))) n).

(** [str(z)] of a Python integer. *)
Definition str_of_Z (z : Z) : list ascii :=
  match z with
  | Zneg p => "-"%char :: str_of_N (Npos p)
  | _ => str_of_N (Z.to_N z)
  end.

(** [f"[{n}]"] *)
Definition bracketed (z : Z) : list ascii :=
  lbracket :: str_of_Z z ++ [rbracket].

(** ** The pattern [\[(\d+)\]] *)

Record Match := mkMatch {
  m_start : nat;
  m_end : nat;
  m_group1 : list ascii
}.

(** Longest prefix of digits and what follows it. *)
Fixpoint span_digits (l : list ascii) : list ascii * list ascii :=
  match l with
  | [] => ([], [])
  | c :: tl =>
      if is_digit c
      then let '(ds, r) := span_digits tl in (c :: ds, r)
      else ([], l)
  end.

(** The pattern anchored at the head of [l]: the digits of group 1. *)
Definition match_here (l : list ascii) : option (list ascii) :=
  match l with
  | c :: l1 =>
      if Ascii.eqb c lbracket then
        match span_digits l1 with
        | (d :: ds, c' :: _) =>
            if Ascii.eqb c' rbracket then Some (d :: ds) else None
        | _ => None
        end
      else None
  | [] => None
  end.

(** [pattern.finditer]: leftmost non-overlapping matches.  [pos] is the
    offset of the head of [l] in the whole text; after a match the search
    resumes at its end, [skip] being the number of characters of the
    current match that are still to be passed over. *)
Fixpoint finditer_at (skip pos : nat) (l : list ascii) : list Match :=
  match l with
  | [] => []
  | _ :: tl =>
      match skip with
      | S k => finditer_at k (S pos) tl
      | O =>
          match match_here l with
          | Some ds =>
              mkMatch pos (pos + (length ds + 2)) ds
                :: finditer_at (S (length ds)) (S pos) tl
          | None => finditer_at 0 (S pos) tl
          end
      end
  end.

Definition finditer (text : list ascii) : list Match := finditer_at 0 0 text.

(** [pattern.sub(repl, text)]: every match replaced by [repl] of its
    group 1, the rest copied. *)
Fixpoint sub_at (repl : list ascii -> option (list ascii))
    (skip : nat) (l : list ascii) : option (list ascii) :=
  match l with
  | [] => Some []
  | c :: tl =>
      match skip with
      | S k => sub_at repl k tl
      | O =>
          match match_here l with
          | Some ds =>
              r ← repl ds;
              rest ← sub_at repl (S (length ds)) tl;
              Some (r ++ rest)
          | None => rest ← sub_at repl 0 tl; Some (c :: rest)
          end
      end
  end.

(** ** Sentence expansion *)

(** Length of the run of white space at the head of [l]. *)
Fixpoint ws_run (l : list ascii) : nat :=
  match l with
  | c :: tl => if isspace c then S (ws_run tl) else 0
  | [] => 0
  end.

(** [while s < len(full_text) and full_text[s].isspace(): s += 1] *)
Definition skip_space (full_text : list ascii) (s : nat) : nat :=
  s + ws_run (drop s full_text).

(** The backward loop, [while s > 0].  [full_text[s]] raises IndexError
    when [s] is not below the length. *)
Fixpoint scan_back (full_text : list ascii) (s : nat) : option nat :=
  match s with
  | O => Some 0
  | S s' =>
      c ← full_text !! s;
      if is_ender c then Some (skip_space full_text (S s))
      else scan_back full_text s'
  end.

(** The forward loop on the suffix that starts at [e]: number of
    characters passed over. *)
Fixpoint fwd_run (l : list ascii) : nat :=
  match l with
  | [] => 0
  | c :: tl => if is_ender c then S (ws_run tl) else S (fwd_run tl)
  end.

Definition scan_fwd (full_text : list ascii) (e : nat) : nat :=
  e + fwd_run (drop e full_text).

Definition _expand_citation_span_to_sentence
    (full_text : list ascii) (start end_ : nat) : option (nat * nat) :=
  sentence_start ← scan_back full_text start;
  Some (sentence_start, scan_fwd full_text end_).


(** ** Data model *)

(** A free-form Python value, as found in metadata maps and dumps. *)
#[warnings="-register-all"]
Inductive PyVal :=
  | PNone
  | PBool (b : bool)
  | PInt (z : Z)
  | PStr (s : string)
  | PList (l : list PyVal)
  | PDict (d : list (string * PyVal)).

(** Scores are floats that the pipeline only copies. *)
Definition pyfloat := Q.

(** A UUID, carried by its [str()]. *)
Record UUID := mkUUID { uuid_str : string }.

(** Modelled from the spec: the [Citation] class lives in
    [api/models/retrieval/responses], which is not part of the sources; the
    fields are those of the produced Citation record of the spec (section 6),
    the optional ones being [None] when absent and [metadata] defaulting to
    the empty map.  The field [id] is named [cit_id] here, so that the
    identity function keeps its name. *)
Record Citation := mkCitation {
  index : Z;
  rawIndex : option Z;
  startIndex : option Z;
  endIndex : option Z;
  snippetStartIndex : option Z;
  snippetEndIndex : option Z;
  sourceType : option string;
  cit_id : option string;
  document_id : option string;
  owner_id : option string;
  collection_ids : option (list string);
  score : option pyfloat;
  text : option string;
  metadata : gmap string PyVal
}.

(** [Citation(index=i, ...)] with every other field at its default. *)
Definition Citation_new (i : Z) : Citation :=
  mkCitation i None None None None None None None None None None None None ∅.

(** Attribute assignment on a copy. *)
Definition set_sourceType (v : option string) (c : Citation) : Citation :=
  let 'mkCitation a b c0 d e f _ h i j k l m n := c in
  mkCitation a b c0 d e f v h i j k l m n.
Definition set_id (v : option string) (c : Citation) : Citation :=
  let 'mkCitation a b c0 d e f g _ i j k l m n := c in
  mkCitation a b c0 d e f g v i j k l m n.
Definition set_document_id (v : option string) (c : Citation) : Citation :=
  let 'mkCitation a b c0 d e f g h _ j k l m n := c in
  mkCitation a b c0 d e f g h v j k l m n.
Definition set_owner_id (v : option string) (c : Citation) : Citation :=
  let 'mkCitation a b c0 d e f g h i _ k l m n := c in
  mkCitation a b c0 d e f g h i v k l m n.
Definition set_collection_ids (v : option (list string)) (c : Citation)
    : Citation :=
  let 'mkCitation a b c0 d e f g h i j _ l m n := c in
  mkCitation a b c0 d e f g h i j v l m n.
Definition set_score (v : option pyfloat) (c : Citation) : Citation :=
  let 'mkCitation a b c0 d e f g h i j k _ m n := c in
  mkCitation a b c0 d e f g h i j k v m n.
Definition set_text (v : option string) (c : Citation) : Citation :=
  let 'mkCitation a b c0 d e f g h i j k l _ n := c in
  mkCitation a b c0 d e f g h i j k l v n.
Definition set_metadata (v : gmap string PyVal) (c : Citation) : Citation :=
  let 'mkCitation a b c0 d e f g h i j k l m _ := c in
  mkCitation a b c0 d e f g h i j k l m v.

(** Modelled from the spec: the result classes of [abstractions/search] are
    not part of the sources; each carries the read-only fields that section 6
    of the spec lists for its category. *)
Record ChunkSearchResult := mkChunk {
  chunk_id : UUID;
  chunk_document_id : UUID;
  chunk_owner_id : option UUID;
  chunk_collection_ids : list UUID;
  chunk_score : option pyfloat;
  chunk_text : string;
  chunk_metadata : gmap string PyVal
}.

(** The structured content of a graph item, with its [model_dump()]. *)
Record GraphContent := mkGraphContent { model_dump : PyVal }.

Record GraphSearchResult := mkGraph {
  graph_score : option pyfloat;
  graph_metadata : gmap string PyVal;
  graph_content : option GraphContent
}.

Record WebSearchResult := mkWeb {
  web_link : string;
  web_title : string;
  web_snippet : string;
  web_position : Z
}.

Record ContextDocumentResult := mkContextDoc {
  ctx_document : list (string * PyVal);
  ctx_chunks : list string
}.

Record AggregateSearchResult := mkAggregate {
  chunk_search_results : option (list ChunkSearchResult);
  graph_search_results : option (list GraphSearchResult);
  web_search_results : option (list WebSearchResult);
  context_document_results : option (list ContextDocumentResult)
}.

(** A source object of any category, as stored in a ledger or in the
    flattened list. *)
Inductive SourceObj :=
  | ChunkObj (c : ChunkSearchResult)
  | GraphObj (g : GraphSearchResult)
  | WebObj (w : WebSearchResult)
  | ContextDocObj (d : ContextDocumentResult).

(** Attribute reads on a source object; [None] is AttributeError. *)
Definition attr_id (o : SourceObj) : option UUID :=
  match o with ChunkObj c => Some (chunk_id c) | _ => None end.
Definition attr_document_id (o : SourceObj) : option UUID :=
  match o with ChunkObj c => Some (chunk_document_id c) | _ => None end.
Definition attr_owner_id (o : SourceObj) : option (option UUID) :=
  match o with ChunkObj c => Some (chunk_owner_id c) | _ => None end.
Definition attr_collection_ids (o : SourceObj) : option (list UUID) :=
  match o with ChunkObj c => Some (chunk_collection_ids c) | _ => None end.
Definition attr_score (o : SourceObj) : option (option pyfloat) :=
  match o with
  | ChunkObj c => Some (chunk_score c)
  | GraphObj g => Some (graph_score g)
  | _ => None
  end.
Definition attr_text (o : SourceObj) : option string :=
  match o with ChunkObj c => Some (chunk_text c) | _ => None end.
Definition attr_metadata (o : SourceObj) : option (gmap string PyVal) :=
  match o with
  | ChunkObj c => Some (chunk_metadata c)
  | GraphObj g => Some (graph_metadata g)
  | _ => None
  end.
Definition attr_content (o : SourceObj) : option (option GraphContent) :=
  match o with GraphObj g => Some (graph_content g) | _ => None end.
Definition attr_link (o : SourceObj) : option string :=
  match o with WebObj w => Some (web_link w) | _ => None end.
Definition attr_title (o : SourceObj) : option string :=
  match o with WebObj w => Some (web_title w) | _ => None end.
Definition attr_position (o : SourceObj) : option Z :=
  match o with WebObj w => Some (web_position w) | _ => None end.
Definition attr_document (o : SourceObj) : option (list (string * PyVal)) :=
  match o with ContextDocObj d => Some (ctx_document d) | _ => None end.
Definition attr_chunks (o : SourceObj) : option (list string) :=
  match o with ContextDocObj d => Some (ctx_chunks d) | _ => None end.

(** An entry of the ledger: [(source_type, source_object, aggregator_index)]. *)
Definition LedgerEntry : Type := string * SourceObj * Z.

(** Modelled from the spec: the collector class is not part of the sources;
    it holds the ordered ledger in [_results_in_order] and
    [get_all_results()] returns that ledger (section 6). *)
Record SearchResultsCollector := mkCollector {
  _results_in_order : list LedgerEntry
}.

Definition get_all_results (collector : SearchResultsCollector)
    : list LedgerEntry :=
  _results_in_order collector.

(** ** Bracket scanner: [extract_citations] *)

(** [Citation(index=.., startIndex=.., endIndex=.., snippetStartIndex=..,
    snippetEndIndex=..)] *)
Definition scanned_citation (bracket_num : Z)
    (start_i end_i snippet_start snippet_end : nat) : Citation :=
  mkCitation bracket_num None
    (Some (Z.of_nat start_i)) (Some (Z.of_nat end_i))
    (Some (Z.of_nat snippet_start)) (Some (Z.of_nat snippet_end))
    None None None None None None None ∅.

Definition extract_one (text : list ascii) (m : Match) : option Citation :=
  let bracket_str := m_group1 m in
  let bracket_num := Z.of_N (int_of_digits bracket_str) in
  let start_i := m_start m in
  let end_i := m_end m in
  '(snippet_start, snippet_end) ←
    _expand_citation_span_to_sentence text start_i end_i;
  Some (scanned_citation bracket_num start_i end_i snippet_start snippet_end).

Definition extract_citations (text : list ascii) : option (list Citation) :=
  mapM (extract_one text) (finditer text).

(** ** Reference renumberer: [reassign_citations_in_order] *)

(** The dictionaries collected in [labeled]. *)
Record Labeled := mkLabeled {
  l_rawIndex : Z;
  l_newIndex : Z;
  l_startIndex : nat;
  l_endIndex : nat
}.

(** The renumberer is modelled on citations that carry non-negative
    [startIndex] and [endIndex], as the scanner produces them; on any other
    citation the model gives no result. *)
Definition offset (o : option Z) : option nat :=
  z ← o; if decide (0 ≤ z)%Z then Some (Z.to_nat z) else None.

Definition with_offsets (c : Citation) : option (Citation * nat * nat) :=
  s ← offset (startIndex c); e ← offset (endIndex c); Some (c, s, e).

(** [sorted(l, key=...)]: stable, ascending. *)
Fixpoint insert_by {A} (key : A → nat) (x : A) (l : list A) : list A :=
  match l with
  | [] => [x]
  | y :: l' => if key x <=? key y then x :: l else y :: insert_by key x l'
  end.

Definition sorted_by {A} (key : A → nat) (l : list A) : list A :=
  foldr (insert_by key) [] l.

(** [sorted(l, key=..., reverse=True)]: stable, descending. *)
Fixpoint insert_by_desc {A} (key : A → nat) (x : A) (l : list A) : list A :=
  match l with
  | [] => [x]
  | y :: l' =>
      if key y <=? key x then x :: l else y :: insert_by_desc key x l'
  end.

Definition sorted_by_desc {A} (key : A → nat) (l : list A) : list A :=
  foldr (insert_by_desc key) [] l.

(** Step 2, the loop that builds [old_to_new] and [labeled]. *)
Fixpoint label_loop (old_to_new : gmap Z Z) (next_new_index : Z)
    (sorted_cits : list (Citation * nat * nat)) : option (list Labeled) :=
  match sorted_cits with
  | [] => Some []
  | (cit, start_i, end_i) :: rest =>
      let old_ref := index cit in
      let '(old_to_new, next_new_index) :=
        match old_to_new !! old_ref with
        | None =>
            (<[old_ref := next_new_index]> old_to_new,
             (next_new_index + 1)%Z)
        | Some _ => (old_to_new, next_new_index)
        end in
      new_ref ← old_to_new !! old_ref;
      items ← label_loop old_to_new next_new_index rest;
      Some (mkLabeled old_ref new_ref start_i end_i :: items)
  end.

(** [result_chars[s_i:e_i] = list(replacement)] *)
Definition splice (result_chars : list ascii) (s_i e_i : nat)
    (replacement : list ascii) : list ascii :=
  take s_i result_chars ++ replacement ++ drop (s_i `max` e_i) result_chars.

(** Step 3, one iteration of the right-to-left replacement. *)
Definition replace_item (result_chars : list ascii) (item : Labeled)
    : list ascii :=
  splice result_chars (l_startIndex item) (l_endIndex item)
    (bracketed (l_newIndex item)).

(** Step 4, the citation built from a labeled item and a re-scanned one. *)
Definition merge_item (labeled_item : Labeled) (updated_cit : Citation)
    : Citation :=
  mkCitation (l_newIndex labeled_item) (Some (l_rawIndex labeled_item))
    (startIndex updated_cit) (endIndex updated_cit)
    (snippetStartIndex updated_cit) (snippetEndIndex updated_cit)
    None None None None None None None ∅.

Definition reassign_citations_in_order
    (text : list ascii) (citations : list Citation)
    : option (list ascii * list Citation) :=
  match citations with
  | [] => Some (text, [])
  | _ =>
      cits ← mapM with_offsets citations;
      let sorted_cits := sorted_by (λ c, c.1.2) cits in
      labeled ← label_loop ∅ 1%Z sorted_cits;
      let result_chars :=
        fold_left replace_item (sorted_by_desc l_startIndex labeled) text in
      let new_text := result_chars in
      updated_extracted ← extract_citations new_text;
      updated ← mapM with_offsets updated_extracted;
      let updated_extracted := (sorted_by (λ c, c.1.2) updated).*1.*1 in
      let labeled := sorted_by l_startIndex labeled in
      Some (new_text, zip_with merge_item labeled updated_extracted)
  end.

(** ** Category-positional mapper: [map_citations_to_sources] *)

(** The items of an optional sequence that passes [if seq:]. *)
Definition items_of {A} (seq : option (list A)) : list A :=
  match seq with
  | Some l => l
  | None => []
  end.

(** Truth value of an optional sequence: neither [None] nor empty. *)
Definition truthy {A} (seq : option (list A)) : bool :=
  match seq with
  | Some (_ :: _) => true
  | _ => false
  end.

Definition flat_source_list (aggregated : AggregateSearchResult)
    : list (SourceObj * string) :=
  ((λ chunk, (ChunkObj chunk, "chunk"%string))
     <$> items_of (chunk_search_results aggregated))
  ++ ((λ g, (GraphObj g, "graph"%string))
        <$> items_of (graph_search_results aggregated))
  ++ ((λ w, (WebObj w, "web"%string))
        <$> items_of (web_search_results aggregated))
  ++ ((λ cdoc, (ContextDocObj cdoc, "contextDoc"%string))
        <$> items_of (context_document_results aggregated)).

(** The metadata maps built for a web hit and for a context document. *)
Definition web_metadata (link title : string) (position : Z)
    : gmap string PyVal :=
  <["position"%string := PInt position]>
    (<["title"%string := PStr title]>
       (<["link"%string := PStr link]> ∅)).

Definition context_metadata (document : list (string * PyVal))
    (chunks : list string) : gmap string PyVal :=
  <["chunks"%string := PList (PStr <$> chunks)]>
    (<["document"%string := PDict document]> ∅).

(** The body of the loop over [citations]. *)
Definition map_citation_to_source (flat_source_list : list (SourceObj * string))
    (cit : Citation) : option Citation :=
  let idx := index cit in
  let idx_0_based := (idx - 1)%Z in
  if decide (idx_0_based < 0 ∨ idx_0_based >= Z.of_nat (length flat_source_list))%Z
  then Some cit
  else
    '(source_obj, source_type) ← flat_source_list !! Z.to_nat idx_0_based;
    let updated_cit := set_sourceType (Some source_type) cit in
    if String.eqb source_type "chunk" then
      i ← attr_id source_obj;
      d ← attr_document_id source_obj;
      o ← attr_owner_id source_obj;
      cs ← attr_collection_ids source_obj;
      sc ← attr_score source_obj;
      tx ← attr_text source_obj;
      md ← attr_metadata source_obj;
      Some (set_metadata md (set_text (Some tx) (set_score sc
             (set_collection_ids (Some (uuid_str <$> cs))
                (set_owner_id (uuid_str <$> o)
                   (set_document_id (Some (uuid_str d))
                      (set_id (Some (uuid_str i)) updated_cit)))))))
    else if String.eqb source_type "graph" then
      sc ← attr_score source_obj;
      md ← attr_metadata source_obj;
      content ← attr_content source_obj;
      Some (set_metadata
              match content with
              | Some ct => <["graphContent"%string := model_dump ct]> md
              | None => md
              end
              (set_score sc updated_cit))
    else if String.eqb source_type "web" then
      l ← attr_link source_obj;
      t ← attr_title source_obj;
      p ← attr_position source_obj;
      Some (set_metadata (web_metadata l t p) updated_cit)
    else if String.eqb source_type "contextDoc" then
      dc ← attr_document source_obj;
      ch ← attr_chunks source_obj;
      Some (set_metadata (context_metadata dc ch) updated_cit)
    else Some updated_cit.

Definition map_citations_to_sources (citations : list Citation)
    (aggregated : AggregateSearchResult) : option (list Citation) :=
  mapM (map_citation_to_source (flat_source_list aggregated)) citations.

(** ** Aggregator-identity mapper: [map_citations_to_collector] *)

(** [aggregator_map[agg_idx] = (stype, obj)] for every ledger entry, in
    ledger order. *)
Definition build_aggregator_map (ledger : list LedgerEntry)
    : gmap Z (string * SourceObj) :=
  fold_left (λ aggregator_map '(stype, obj, agg_idx),
               <[agg_idx := (stype, obj)]> aggregator_map) ledger ∅.

(** The branch taken when [old_ref in aggregator_map]. *)
Definition fill_from_collector (source_type : string) (result_obj : SourceObj)
    (cit : Citation) : option Citation :=
  let updated := set_sourceType (Some source_type) cit in
  if String.eqb source_type "chunk" then
    i ← attr_id result_obj;
    d ← attr_document_id result_obj;
    o ← attr_owner_id result_obj;
    cs ← attr_collection_ids result_obj;
    sc ← attr_score result_obj;
    tx ← attr_text result_obj;
    md ← attr_metadata result_obj;
    Some (set_metadata md (set_text (Some tx) (set_score sc
           (set_collection_ids (Some (uuid_str <$> cs))
              (set_owner_id (uuid_str <$> o)
                 (set_document_id (Some (uuid_str d))
                    (set_id (Some (uuid_str i)) updated)))))))
  else if String.eqb source_type "graph" then
    sc ← attr_score result_obj;
    md ← attr_metadata result_obj;
    content ← attr_content result_obj;
    Some (set_metadata
            match content with
            | Some ct => <["graphContent"%string := model_dump ct]> md
            | None => md
            end
            (set_score sc updated))
  else if String.eqb source_type "web" then
    l ← attr_link result_obj;
    t ← attr_title result_obj;
    p ← attr_position result_obj;
    Some (set_metadata (web_metadata l t p) updated)
  else if String.eqb source_type "contextDoc" then
    dc ← attr_document result_obj;
    ch ← attr_chunks result_obj;
    Some (set_metadata (context_metadata dc ch) updated)
  else Some (set_metadata ∅ updated).

(** The body of the loop over [citations]. *)
Definition map_citation_to_collector
    (aggregator_map : gmap Z (string * SourceObj)) (cit : Citation)
    : option Citation :=
  let old_ref := rawIndex cit in
  match old_ref ≫= (aggregator_map !!.) with
  | Some (source_type, result_obj) =>
      fill_from_collector source_type result_obj cit
  | None => Some (set_sourceType (Some "unknown"%string) cit)
  end.

Definition map_citations_to_collector (citations : list Citation)
    (collector : SearchResultsCollector) : option (list Citation) :=
  let aggregator_map := build_aggregator_map (get_all_results collector) in
  mapM (map_citation_to_collector aggregator_map) citations.

(** ** Aggregator-based pipeline: [finalize_citations_with_collector] *)

(** [sorted({...})]: the distinct values in ascending order. *)
Fixpoint insert_unique (x : Z) (l : list Z) : list Z :=
  match l with
  | [] => [x]
  | y :: l' =>
      if (x <? y)%Z then x :: l
      else if (x =? y)%Z then l
      else y :: insert_unique x l'
  end.

Definition sorted_set (l : list Z) : list Z := foldr insert_unique [] l.

(** [for i, old_ref in enumerate(unique_old_refs, start=i0)] *)
Fixpoint enumerate_map (i : Z) (unique_old_refs : list Z) (old_to_new : gmap Z Z)
    : gmap Z Z :=
  match unique_old_refs with
  | [] => old_to_new
  | old_ref :: rest => enumerate_map (i + 1)%Z rest (<[old_ref := i]> old_to_new)
  end.

(** The first ledger entry whose aggregator index is [old_ref]. *)
Fixpoint find_aggregator_item (all_items : list LedgerEntry) (old_ref : Z)
    : option (string * SourceObj) :=
  match all_items with
  | [] => None
  | (stype, obj, agg_idx) :: rest =>
      if decide (agg_idx = old_ref) then Some (stype, obj)
      else find_aggregator_item rest old_ref
  end.

(** The citation built for one bracket occurrence.  The [doc_id] keyword of
    the source is not a field of the Citation record and is left out. *)
Definition occurrence_citation (all_items : list LedgerEntry)
    (old_ref new_ref : Z) (s_i e_i : nat) : Citation :=
  match find_aggregator_item all_items old_ref with
  | Some (source_type, result_obj) =>
      mkCitation new_ref (Some old_ref)
        (Some (Z.of_nat s_i)) (Some (Z.of_nat e_i)) None None
        (Some source_type) None None None None None
        (attr_text result_obj)
        (default ∅ (attr_metadata result_obj))
  | None =>
      mkCitation new_ref (Some old_ref)
        (Some (Z.of_nat s_i)) (Some (Z.of_nat e_i)) None None
        (Some "unknown"%string) None None None None None None ∅
  end.

Definition finalize_citations_with_collector (raw_text : list ascii)
    (collector : SearchResultsCollector)
    : option (list ascii * list Citation) :=
  match raw_text with
  | [] => Some (raw_text, [])
  | _ =>
      let matches := finditer raw_text in
      match matches with
      | [] => Some (raw_text, [])
      | _ =>
          let bracket_occurrences :=
            (λ m, (Z.of_N (int_of_digits (m_group1 m)), m_start m, m_end m))
              <$> matches in
          let unique_old_refs := sorted_set (bracket_occurrences.*1.*1) in
          let old_to_new := enumerate_map 1%Z unique_old_refs ∅ in
          let all_items := get_all_results collector in
          final_citations ←
            mapM (λ occ : Z * nat * nat,
                    let old_ref := occ.1.1 in
                    new_ref ← old_to_new !! old_ref;
                    Some (occurrence_citation all_items old_ref new_ref
                            occ.1.2 occ.2))
                 bracket_occurrences;
          let reindex (old_str : list ascii) :=
            new_int ← old_to_new !! Z.of_N (int_of_digits old_str);
            Some (bracketed new_int) in
          relabeled_text ← sub_at reindex 0 raw_text;
          Some (relabeled_text, final_citations)
      end
  end.

(** [text[start:end]] for non-negative bounds. *)
Definition substring (text : list ascii) (start end_ : nat) : list ascii :=
  take (end_ - start) (drop start text).

(** ** Collector reordering: [reorder_collector_to_match_final_brackets] *)

(** The position that the Python index [i] denotes in a list of length
    [n]; a negative index counts from the end, and an index outside
    [-n .. n-1] raises IndexError. *)
Definition py_index (n : nat) (i : Z) : option nat :=
  if decide (0 ≤ i < Z.of_nat n)%Z then Some (Z.to_nat i)
  else if decide (- Z.of_nat n ≤ i < 0)%Z then Some (Z.to_nat (Z.of_nat n + i))
  else None.

(** [max((c.index for c in final_citations), default=0)] *)
Definition max_index_of (final_citations : list Citation) : Z :=
  match final_citations with
  | [] => 0%Z
  | c :: rest => fold_left (λ m c', Z.max m (index c')) rest (index c)
  end.

(** The body of the loop over [final_citations]. *)
Definition reorder_step (old_list : list LedgerEntry)
    (new_list : list (option LedgerEntry)) (cit : Citation)
    : option (list (option LedgerEntry)) :=
  let old_idx := rawIndex cit in
  let new_idx := index cit in
  match old_idx with
  | None => Some new_list
  | Some old_idx =>
      if decide (old_idx = 0)%Z then Some new_list
      else
        let pos := (old_idx - 1)%Z in
        if decide (pos < 0 ∨ pos >= Z.of_nat (length old_list))%Z
        then Some new_list
        else
          k ← py_index (length new_list) (new_idx - 1);
          slot ← new_list !! k;
          match slot with
          | None =>
              item ← old_list !! Z.to_nat pos;
              Some (<[k := Some item]> new_list)
          | Some _ => Some new_list
          end
  end.

Fixpoint reorder_loop (old_list : list LedgerEntry)
    (new_list : list (option LedgerEntry)) (final_citations : list Citation)
    : option (list (option LedgerEntry)) :=
  match final_citations with
  | [] => Some new_list
  | cit :: rest =>
      new_list ← reorder_step old_list new_list cit;
      reorder_loop old_list new_list rest
  end.

(** The collector after the call; the assignment to
    [collector._results_in_order] is the only effect. *)
Definition reorder_collector_to_match_final_brackets
    (collector : SearchResultsCollector) (final_citations : list Citation)
    : option SearchResultsCollector :=
  let old_list := get_all_results collector in
  let max_index := max_index_of final_citations in
  let new_list := replicate (Z.to_nat max_index) None in
  new_list ← reorder_loop old_list new_list final_citations;
  Some (mkCollector (omap id new_list)).

(** ** Stream renderer: [format_search_results_for_stream] *)

Section Stream.

(** The dictionary forms of the result classes ([as_dict], [dict],
    [to_dict]) and [json.dumps(.., default=str)] belong to code outside
    the sources; the renderer is parametric in them. *)
Variable chunk_as_dict : ChunkSearchResult → PyVal.
Variable graph_dict : GraphSearchResult → PyVal.
Variable web_to_dict : WebSearchResult → PyVal.
Variable context_to_dict : ContextDocumentResult → PyVal.
Variable json_dumps : list PyVal → string.

Definition CHUNK_SEARCH_STREAM_MARKER : string := "chunk_search".
Definition GRAPH_SEARCH_STREAM_MARKER : string := "graph_search".
Definition WEB_SEARCH_STREAM_MARKER : string := "web_search".
Definition CONTEXT_STREAM_MARKER : string := "content".

Definition format_search_results_for_stream
    (results : AggregateSearchResult) : string :=
  let context := ""%string in
  let context :=
    if truthy (chunk_search_results results) then
      let context := context +:+ "<" +:+ CHUNK_SEARCH_STREAM_MARKER +:+ ">" in
      let vector_results_list :=
        chunk_as_dict <$> items_of (chunk_search_results results) in
      let context := context +:+ json_dumps vector_results_list in
      context +:+ "</" +:+ CHUNK_SEARCH_STREAM_MARKER +:+ ">"
    else context in
  let context :=
    if truthy (graph_search_results results) then
      let context := context +:+ "<" +:+ GRAPH_SEARCH_STREAM_MARKER +:+ ">" in
      let graph_search_results_results_list :=
        graph_dict <$> items_of (graph_search_results results) in
      let context :=
        context +:+ json_dumps graph_search_results_results_list in
      context +:+ "</" +:+ GRAPH_SEARCH_STREAM_MARKER +:+ ">"
    else context in
  let context :=
    if truthy (web_search_results results) then
      let context := context +:+ "<" +:+ WEB_SEARCH_STREAM_MARKER +:+ ">" in
      let web_results_list :=
        web_to_dict <$> items_of (web_search_results results) in
      let context := context +:+ json_dumps web_results_list in
      context +:+ "</" +:+ WEB_SEARCH_STREAM_MARKER +:+ ">"
    else context in
  let context :=
    if truthy (context_document_results results) then
      let context := context +:+ "<" +:+ CONTEXT_STREAM_MARKER +:+ ">" in
      let content_list :=
        context_to_dict <$> items_of (context_document_results results) in
      let context := context +:+ json_dumps content_list in
      context +:+ "</" +:+ CONTEXT_STREAM_MARKER +:+ ">"
    else context in
  context.

(** The renderer as the spec words it: one segment per category, in the
    fixed order, a category without items contributing nothing. *)
Definition stream_segment (tag : string) (dicts : list PyVal) : string :=
  match dicts with
  | [] => ""
  | _ => "<" +:+ tag +:+ ">" +:+ json_dumps dicts +:+ "</" +:+ tag +:+ ">"
  end.

Definition stream_renderer_spec (results : AggregateSearchResult) : string :=
  String.concat ""
    [ stream_segment "chunk_search"
        (chunk_as_dict <$> items_of (chunk_search_results results));
      stream_segment "graph_search"
        (graph_dict <$> items_of (graph_search_results results));
      stream_segment "web_search"
        (web_to_dict <$> items_of (web_search_results results));
      stream_segment "content"
        (context_to_dict <$> items_of (context_document_results results)) ].

End Stream.

(** ** Position-based pipeline: [finalize_citations_in_message] *)


(** ** Version strings: [increment_version], [decrement_version] *)

(** [int(c)] for a string of one character; ValueError when it is not a
    digit. *)
Definition int_of_char (c : ascii) : option Z :=
  if is_digit c then Some (Z.of_N (digit_of c)) else None.

(** [version[:-1]] *)
Definition all_but_last (version : list ascii) : list ascii :=
  take (length version - 1) version.

(** [version[-1]] raises IndexError on the empty string. *)
Definition increment_version (version : list ascii) : option (list ascii) :=
  let prefix := all_but_last version in
  c ← last version;
  suffix ← int_of_char c;
  Some (prefix ++ str_of_Z (suffix + 1)).

Definition decrement_version (version : list ascii) : option (list ascii) :=
  let prefix := all_but_last version in
  c ← last version;
  suffix ← int_of_char c;
  Some (prefix ++ str_of_Z (Z.max 0 (suffix - 1))).

(** ** Dictionary merge: [deep_update] *)

(** A [dict] with string keys, in insertion order. *)
Fixpoint dict_get (k : string) (d : list (string * PyVal)) : option PyVal :=
  match d with
  | [] => None
  | (k', v) :: rest => if String.eqb k k' then Some v else dict_get k rest
  end.

(** [d[k] = v]: the value is replaced where the key is, a new key goes to
    the end. *)
Fixpoint dict_set (k : string) (v : PyVal) (d : list (string * PyVal))
    : list (string * PyVal) :=
  match d with
  | [] => [(k, v)]
  | (k', v') :: rest =>
      if String.eqb k k' then (k, v) :: rest else (k', v') :: dict_set k v rest
  end.

(** [deep_update(updated_mapping, v)] for one updating mapping, given as
    the value [v = PDict updating_mapping]; a [v] that is no dict updates
    nothing. *)
Fixpoint deep_update_with (v : PyVal) (updated_mapping : list (string * PyVal))
    {struct v} : list (string * PyVal) :=
  match v with
  | PDict updating_mapping =>
      (fix items (l : list (string * PyVal)) (updated_mapping : list (string * PyVal))
         {struct l} : list (string * PyVal) :=
         match l with
         | [] => updated_mapping
         | (k, v') :: rest =>
             items rest
               (dict_set k
                  match dict_get k updated_mapping, v' with
                  | Some (PDict d), PDict _ => PDict (deep_update_with v' d)
                  | _, _ => v'
                  end
                  updated_mapping)
         end) updating_mapping updated_mapping
  | _ => updated_mapping
  end.

Definition deep_update (mapping : list (string * PyVal))
    (updating_mappings : list (list (string * PyVal))) : list (string * PyVal) :=
  let updated_mapping := mapping in
  fold_left (λ updated_mapping updating_mapping,
               deep_update_with (PDict updating_mapping) updated_mapping)
    updating_mappings updated_mapping.

(** ** Identifiers: [generate_document_id] and its siblings *)

(** [s.replace(old, new)] for one-character [old] and [new]. *)
Fixpoint replace_char (old new : ascii) (s : string) : string :=
  match s with
  | EmptyString => EmptyString
  | String c rest =>
      String (if Ascii.eqb c old then new else c) (replace_char old new rest)
  end.

Section Identifiers.

(** [uuid5(NAMESPACE_DNS, label)] belongs to the [uuid] library; the
    generators are parametric in it. *)
Variable uuid5_dns : string → UUID.

Definition _generate_id_from_label (label : string) : UUID := uuid5_dns label.

Definition generate_document_id (filename : string) (user_id : UUID) : UUID :=
  let safe_filename := replace_char "/" "_" filename in
  _generate_id_from_label (safe_filename +:+ "-" +:+ uuid_str user_id).

Definition generate_default_user_collection_id (user_id : UUID) : UUID :=
  _generate_id_from_label (uuid_str user_id).

Definition generate_user_id (email : string) : UUID :=
  _generate_id_from_label email.

Definition generate_default_prompt_id (prompt_name : string) : UUID :=
  _generate_id_from_label prompt_name.

End Identifiers.

(** ** Notions used to state and prove the properties *)

(** A text seen as the sequence of its bracket references and of the
    characters between them. *)
Inductive token :=
  | Lit (c : ascii)
  | Cite (ds : list ascii).

Definition tok_text (t : token) : list ascii :=
  match t with
  | Lit c => [c]
  | Cite ds => lbracket :: ds ++ [rbracket]
  end.

Definition flatten (toks : list token) : list ascii :=
  concat (tok_text <$> toks).

(** The tokens of a text, found by the same scan as [finditer_at]. *)
Fixpoint tokenize_at (skip : nat) (l : list ascii) : list token :=
  match l with
  | [] => []
  | c :: tl =>
      match skip with
      | S k => tokenize_at k tl
      | O =>
          match match_here l with
          | Some ds => Cite ds :: tokenize_at (S (length ds)) tl
          | None => Lit c :: tokenize_at 0 tl
          end
      end
  end.

Definition tokenize (text : list ascii) : list token := tokenize_at 0 text.

(** The matches that a token sequence starting at offset [pos] holds. *)
Fixpoint tok_matches (pos : nat) (toks : list token) : list Match :=
  match toks with
  | [] => []
  | Lit _ :: rest => tok_matches (S pos) rest
  | Cite ds :: rest =>
      mkMatch pos (pos + (length ds + 2)) ds
        :: tok_matches (pos + (length ds + 2)) rest
  end.

(** A non-empty string of digits. *)
Definition numeral (ds : list ascii) : Prop :=
  ds ≠ [] ∧ Forall (λ c, is_digit c = true) ds.

(** Token sequences that the scan produces: no literal starts a match and
    every reference holds a numeral. *)
Fixpoint scanned (toks : list token) : Prop :=
  match toks with
  | [] => True
  | Lit c :: rest => match_here (c :: flatten rest) = None ∧ scanned rest
  | Cite ds :: rest => numeral ds ∧ scanned rest
  end.

(** The references of a token sequence replaced, in order, by [reps]. *)
Fixpoint relabel (toks : list token) (reps : list (list ascii)) : list token :=
  match toks with
  | [] => []
  | Lit c :: rest => Lit c :: relabel rest reps
  | Cite ds :: rest =>
      match reps with
      | [] => toks
      | r :: reps' => Cite r :: relabel rest reps'
      end
  end.

(** The bracket values of a token sequence, in order. *)
Fixpoint cite_values (toks : list token) : list Z :=
  match toks with
  | [] => []
  | Lit _ :: rest => cite_values rest
  | Cite ds :: rest => Z.of_N (int_of_digits ds) :: cite_values rest
  end.

(** After the digits at the head of [l] comes a closing bracket. *)
Definition closes (l : list ascii) : bool :=
  match (span_digits l).2 with
  | c :: _ => Ascii.eqb c rbracket
  | [] => false
  end.

(** The head of [l] starts a numeral that a closing bracket follows. *)
Definition opens (l : list ascii) : bool :=
  match l with
  | d :: _ => is_digit d && closes l
  | [] => false
  end.

(** The labeled items for the matches [ms] numbered by [news]. *)
Definition labeled_of (ms : list Match) (news : list Z) : list Labeled :=
  zip_with (λ m v, mkLabeled (Z.of_N (int_of_digits (m_group1 m))) v
                     (m_start m) (m_end m)) ms news.

(** The citation that the scanner builds for the match [m] of [text]. *)
Definition cit_of_match (text : list ascii) (m : Match) : Citation :=
  scanned_citation (Z.of_N (int_of_digits (m_group1 m))) (m_start m) (m_end m)
    (default 0 (scan_back text (m_start m))) (scan_fwd text (m_end m)).

(** The new numbers that the labelling loop hands out. *)
Fixpoint assign (old_to_new : gmap Z Z) (next_new_index : Z) (raws : list Z)
    : list Z :=
  match raws with
  | [] => []
  | r :: rest =>
      match old_to_new !! r with
      | Some v => v :: assign old_to_new next_new_index rest
      | None =>
          next_new_index
            :: assign (<[r := next_new_index]> old_to_new)
                 (next_new_index + 1)%Z rest
      end
  end.

(** The text and the citations that the renumberer returns for a scanned
    text, written with tokens. *)
Definition renumbered_text (text : list ascii) : list ascii :=
  let toks := tokenize text in
  flatten (relabel toks (str_of_Z <$> assign ∅ 1%Z (cite_values toks))).

Definition renumbered_citations (text : list ascii) : list Citation :=
  let news := assign ∅ 1%Z (cite_values (tokenize text)) in
  zip_with merge_item (labeled_of (finditer text) news)
    (cit_of_match (renumbered_text text) <$> finditer (renumbered_text text)).

(** The distinct values of a list in order of first appearance. *)
Fixpoint first_seen_from (seen : list Z) (l : list Z) : list Z :=
  match l with
  | [] => seen
  | x :: rest =>
      if decide (x ∈ seen) then first_seen_from seen rest
      else first_seen_from (seen ++ [x]) rest
  end.

Definition first_seen (l : list Z) : list Z := first_seen_from [] l.

(** The state of the labelling loop: [seen] lists the numbered values in
    the order in which they got their number. *)
Definition numbered (old_to_new : gmap Z Z) (next_new_index : Z)
    (seen : list Z) : Prop :=
  NoDup seen
  ∧ next_new_index = (1 + Z.of_nat (length seen))%Z
  ∧ ∀ k v, old_to_new !! k = Some v
           ↔ (1 ≤ v)%Z ∧ seen !! Z.to_nat (v - 1) = Some k.

(** Sequences in which every value is one already used or the next unused
    one, [n] values being in use. *)
Fixpoint first_use_order (n : Z) (xs : list Z) : Prop :=
  match xs with
  | [] => True
  | x :: rest =>
      ((1 ≤ x ≤ n)%Z ∧ first_use_order n rest)
      ∨ (x = (n + 1)%Z ∧ first_use_order (n + 1) rest)
  end.

(** The snippet start for a bracket at [start], as a relation: [p] is the
    nearest terminator before the bracket among the positions from [lo]
    on, and [ss] the first position after it that holds no white space;
    without such a terminator the snippet starts with the text. *)
Definition snippet_start_rel (lo : nat) (full_text : list ascii)
    (start ss : nat) : Prop :=
  (∃ p c, lo ≤ p < start ∧ full_text !! p = Some c ∧ is_ender c = true
      ∧ (∀ q c', p < q < start → full_text !! q = Some c' →
           is_ender c' = false)
      ∧ p < ss
      ∧ (∀ q c', p < q < ss → full_text !! q = Some c' → isspace c' = true)
      ∧ (∀ c', full_text !! ss = Some c' → isspace c' = false))
  ∨ ((∀ q c', lo ≤ q < start → full_text !! q = Some c' →
        is_ender c' = false)
     ∧ ss = 0).

(** The snippet end for a bracket that ends at [e]: just after the nearest
    terminator from [e] on and the white space that follows it, or the end
    of the text. *)
Definition snippet_end_rel (full_text : list ascii) (e se : nat) : Prop :=
  (∃ p c, e ≤ p ∧ full_text !! p = Some c ∧ is_ender c = true
      ∧ (∀ q c', e ≤ q < p → full_text !! q = Some c' → is_ender c' = false)
      ∧ p < se ≤ length full_text
      ∧ (∀ q c', p < q < se → full_text !! q = Some c' → isspace c' = true)
      ∧ (∀ c', full_text !! se = Some c' → isspace c' = false))
  ∨ ((∀ q c', e ≤ q → full_text !! q = Some c' → is_ender c' = false)
     ∧ se = length full_text).

(** The category name of a source object. *)
Definition category_of (o : SourceObj) : string :=
  match o with
  | ChunkObj _ => "chunk"
  | GraphObj _ => "graph"
  | WebObj _ => "web"
  | ContextDocObj _ => "contextDoc"
  end.

(** The ledger of a collector filled from [aggregated] in category order:
    aggregator indices 1..N along the flattened source sequence. *)
Definition ledger_of (aggregated : AggregateSearchResult) : list LedgerEntry :=
  imap (λ i '(obj, stype), (stype, obj, Z.of_nat (S i)))
       (flat_source_list aggregated).

(** The citation that both mappers build from a source object of a known
    category. *)
Definition source_citation (obj : SourceObj) (cit : Citation) : Citation :=
  let updated := set_sourceType (Some (category_of obj)) cit in
  match obj with
  | ChunkObj c =>
      set_metadata (chunk_metadata c) (set_text (Some (chunk_text c))
        (set_score (chunk_score c)
           (set_collection_ids (Some (uuid_str <$> chunk_collection_ids c))
              (set_owner_id (uuid_str <$> chunk_owner_id c)
                 (set_document_id (Some (uuid_str (chunk_document_id c)))
                    (set_id (Some (uuid_str (chunk_id c))) updated))))))
  | GraphObj g =>
      set_metadata
        match graph_content g with
        | Some ct => <["graphContent"%string := model_dump ct]> (graph_metadata g)
        | None => graph_metadata g
        end
        (set_score (graph_score g) updated)
  | WebObj w =>
      set_metadata (web_metadata (web_link w) (web_title w) (web_position w))
        updated
  | ContextDocObj d =>
      set_metadata (context_metadata (ctx_document d) (ctx_chunks d)) updated
  end.

(** A ledger entry whose type tag, when it is one of the four category
    names, is the category of the object it comes with. *)
Definition well_tagged (entry : LedgerEntry) : Prop :=
  entry.1.1 ∈ ["chunk"; "graph"; "web"; "contextDoc"]%string →
  entry.1.1 = category_of entry.1.2.

(** The ledger entries numbered from [n + 1] on along a flattened source
    sequence. *)
Definition ledger_from (n : nat) (flat : list (SourceObj * string))
    : list LedgerEntry :=
  imap (λ i '(obj, stype), (stype, obj, Z.of_nat (S (n + i)))) flat.

(** The text obtained from a token sequence by replacing every reference
    with [r] of its digits. *)
Definition sub_toks (r : list ascii → list ascii) (toks : list token)
    : list ascii :=
  concat ((λ t, match t with Lit c => [c] | Cite ds => r ds end) <$> toks).

(** The fields of a citation that say where it is and which bracket it
    is. *)
Definition span_of (c : Citation)
    : Z * option Z * option Z * option Z * option Z * option Z :=
  (index c, rawIndex c, startIndex c, endIndex c,
   snippetStartIndex c, snippetEndIndex c).

(** * Properties *)

(** ** Decimal numerals *)

Lemma digit_of_char_of_digit d : (d < 10)%N → digit_of (char_of_digit d) = d.
Proof.
  intros Hd. unfold digit_of, char_of_digit.
  rewrite N_ascii_embedding by lia. lia.
Qed.

Lemma is_digit_char_of_digit d : (d < 10)%N → is_digit (char_of_digit d) = true.
Proof.
  intros Hd. unfold is_digit, char_of_digit.
  rewrite N_ascii_embedding by lia.
  apply andb_true_intro; split; apply N.leb_le; lia.
Qed.

Lemma int_of_digits_snoc ds c :
  int_of_digits (ds ++ [c]) = (10 * int_of_digits ds + digit_of c)%N.
Proof. unfold int_of_digits. by rewrite fold_left_app. Qed.

Lemma digits_le_digits fuel n :
  Forall (λ c, is_digit c = true) (digits_le fuel n).
Proof.
  revert n. induction fuel as [|f IH]; intros n; simpl; [constructor|].
  constructor.
  - apply is_digit_char_of_digit. apply N.mod_lt. lia.
  - destruct (n <? 10)%N; [constructor | apply IH].
Qed.

Lemma digits_le_value fuel n :
  (n < 2 ^ N.of_nat fuel)%N → int_of_digits (rev (digits_le fuel n)) = n.
Proof.
  revert n. induction fuel as [|f IH]; intros n Hn.
  - simpl in *. assert (n = 0%N) as -> by lia. reflexivity.
  - cbn [digits_le rev]. rewrite int_of_digits_snoc.
    rewrite digit_of_char_of_digit by (apply N.mod_lt; lia).
    destruct (n <? 10)%N eqn:Hlt.
    + apply N.ltb_lt in Hlt. change (int_of_digits (rev [])) with 0%N.
      rewrite N.mod_small by lia. lia.
    + apply N.ltb_ge in Hlt. rewrite IH.
      * pose proof (N.Div0.div_mod n 10). lia.
      * replace (N.of_nat (S f)) with (N.succ (N.of_nat f)) in Hn by lia.
        rewrite N.pow_succ_r' in Hn.
        apply N.Div0.div_lt_upper_bound. lia.
Qed.

Lemma str_of_N_numeral n : numeral (str_of_N n).
Proof.
  unfold str_of_N; split.
  - simpl. intros H. apply (f_equal length) in H.
    rewrite length_app in H. simpl in H. lia.
  - apply Forall_rev, digits_le_digits.
Qed.

Lemma int_of_str_of_N n : int_of_digits (str_of_N n) = n.
Proof.
  unfold str_of_N. apply digits_le_value.
  destruct (decide (n = 0%N)) as [->|Hn]; [simpl; lia|].
  replace (N.of_nat (S (N.to_nat (N.log2 n)))) with (N.succ (N.log2 n)) by lia.
  apply N.log2_spec. lia.
Qed.

Lemma str_of_Z_nonneg z : (0 ≤ z)%Z → str_of_Z z = str_of_N (Z.to_N z).
Proof. destruct z; [done | done | lia]. Qed.

(** ** The scan seen through tokens *)

Lemma flatten_cons t toks : flatten (t :: toks) = tok_text t ++ flatten toks.
Proof. reflexivity. Qed.

Lemma span_digits_spec l :
  l = (span_digits l).1 ++ (span_digits l).2
  ∧ Forall (λ c, is_digit c = true) (span_digits l).1
  ∧ (∀ c r, (span_digits l).2 = c :: r → is_digit c = false).
Proof.
  induction l as [|c tl (IH1 & IH2 & IH3)]; simpl.
  - repeat split; [constructor | intros ? ? [=]].
  - destruct (is_digit c) eqn:Hc.
    + destruct (span_digits tl) as [ds r]; simpl in *.
      repeat split; [congruence | by constructor | done].
    + simpl. repeat split; [constructor | by intros ? ? [= -> _]].
Qed.

Lemma span_digits_app ds r :
  Forall (λ c, is_digit c = true) ds →
  (∀ c r', r = c :: r' → is_digit c = false) →
  span_digits (ds ++ r) = (ds, r).
Proof.
  intros Hds Hr. induction Hds as [|c ds Hc _ IH]; simpl.
  - destruct r as [|c r']; [done|]. simpl. by rewrite (Hr c r').
  - by rewrite Hc, IH.
Qed.

Lemma match_here_Some l ds :
  match_here l = Some ds →
  numeral ds ∧ ∃ rest, l = lbracket :: ds ++ rbracket :: rest.
Proof.
  destruct l as [|c l1]; [done|]. unfold match_here.
  destruct (Ascii.eqb c lbracket) eqn:Hc; [|done].
  apply Ascii.eqb_eq in Hc as ->.
  destruct (span_digits_spec l1) as (Hl & Hds & _).
  destruct (span_digits l1) as [[|d ds'] [|c' r]]; simpl in *; try done.
  destruct (Ascii.eqb c' rbracket) eqn:Hc'; [|done].
  apply Ascii.eqb_eq in Hc' as ->. intros [= <-].
  split; [by split|]. exists r. by rewrite Hl.
Qed.

Lemma match_here_cite ds rest :
  numeral ds → match_here (lbracket :: ds ++ rbracket :: rest) = Some ds.
Proof.
  intros [Hne Hds]. unfold match_here.
  rewrite Ascii.eqb_refl, span_digits_app; [|done|by intros ? ? [= <- _]].
  destruct ds; [done|]. by rewrite Ascii.eqb_refl.
Qed.

Lemma drop_cite (ds : list ascii) c rest :
  drop (S (length ds)) (ds ++ c :: rest) = rest.
Proof. induction ds as [|d ds IH]; [done | apply IH]. Qed.

Lemma tokenize_at_skip skip l :
  tokenize_at skip l = tokenize_at 0 (drop skip l).
Proof.
  revert skip. induction l as [|c tl IH]; intros [|k]; try done.
  simpl. apply IH.
Qed.

Lemma flatten_tokenize_at skip l : flatten (tokenize_at skip l) = drop skip l.
Proof.
  revert skip. induction l as [|c tl IH]; intros [|k]; try done.
  - cbn [tokenize_at]. destruct (match_here (c :: tl)) as [ds|] eqn:Hm.
    + apply match_here_Some in Hm as [_ [rest Hrest]].
      injection Hrest as -> ->.
      rewrite flatten_cons, IH, drop_cite. cbn [tok_text app drop].
      by rewrite <- app_assoc.
    + rewrite flatten_cons, IH. reflexivity.
  - simpl. apply IH.
Qed.

Lemma flatten_tokenize text : flatten (tokenize text) = text.
Proof. apply flatten_tokenize_at. Qed.

Lemma scanned_tokenize_at skip l : scanned (tokenize_at skip l).
Proof.
  revert skip. induction l as [|c tl IH]; intros [|k]; try done.
  - cbn [tokenize_at]. destruct (match_here (c :: tl)) as [ds|] eqn:Hm.
    + split; [|apply IH]. by apply match_here_Some in Hm as [? _].
    + split; [|apply IH]. by rewrite flatten_tokenize_at.
  - simpl. apply IH.
Qed.

Lemma tokenize_flatten toks : scanned toks → tokenize (flatten toks) = toks.
Proof.
  unfold tokenize. induction toks as [|[c|ds] rest IH]; [done| |].
  - intros [Hm Hs]. rewrite flatten_cons. cbn [tok_text app tokenize_at].
    rewrite Hm. f_equal. by apply IH.
  - intros [Hn Hs]. rewrite flatten_cons. cbn [tok_text app].
    rewrite <- app_assoc. cbn [app tokenize_at].
    rewrite (match_here_cite ds (flatten rest) Hn). f_equal.
    rewrite tokenize_at_skip, drop_cite. by apply IH.
Qed.

Lemma finditer_at_tokens skip pos l :
  finditer_at skip pos l = tok_matches (pos + skip) (tokenize_at skip l).
Proof.
  revert skip pos. induction l as [|c tl IH]; intros [|k] pos; try done.
  - cbn [finditer_at tokenize_at].
    destruct (match_here (c :: tl)) as [ds|]; cbn [tok_matches].
    + rewrite Nat.add_0_r, IH. f_equal. f_equal. lia.
    + rewrite IH. f_equal; lia.
  - cbn [finditer_at tokenize_at]. rewrite IH. f_equal; lia.
Qed.

Lemma finditer_tokens text : finditer text = tok_matches 0 (tokenize text).
Proof. apply finditer_at_tokens. Qed.

(** ** Relabelling the references of a scanned text *)

Lemma closes_cons d tl :
  closes (d :: tl) = if is_digit d then closes tl else Ascii.eqb d rbracket.
Proof.
  unfold closes; simpl. destruct (is_digit d); [|done].
  by destruct (span_digits tl).
Qed.

Lemma match_here_None c l :
  match_here (c :: l) = None ↔ Ascii.eqb c lbracket && opens l = false.
Proof.
  unfold match_here. destruct (Ascii.eqb c lbracket); [|done].
  destruct l as [|d tl]; [done|]. unfold opens. rewrite closes_cons.
  unfold closes. simpl. destruct (is_digit d); [|done].
  destruct (span_digits tl) as [ds [|c' r]]; simpl; [done|].
  destruct (Ascii.eqb c' rbracket); split; done.
Qed.

Lemma closes_relabel toks reps :
  closes (flatten (relabel toks reps)) = closes (flatten toks).
Proof.
  revert reps. induction toks as [|[c|ds] rest IH]; intros reps; [done| |].
  - cbn [relabel]. rewrite !flatten_cons. cbn [tok_text app].
    by rewrite !closes_cons, IH.
  - destruct reps as [|r reps']; [done|]. cbn [relabel].
    rewrite !flatten_cons. cbn [tok_text app]. by rewrite !closes_cons.
Qed.

Lemma opens_relabel toks reps :
  opens (flatten (relabel toks reps)) = opens (flatten toks).
Proof.
  destruct toks as [|[c|ds] rest]; [done| |].
  - cbn [relabel]. rewrite !flatten_cons. cbn [tok_text app opens].
    by rewrite !closes_cons, closes_relabel.
  - by destruct reps.
Qed.

Lemma scanned_relabel toks reps :
  scanned toks → Forall numeral reps → scanned (relabel toks reps).
Proof.
  revert reps. induction toks as [|[c|ds] rest IH]; intros reps; [done| |].
  - intros [Hm Hs] Hreps. split; [|by apply IH].
    apply match_here_None. rewrite opens_relabel.
    by apply match_here_None.
  - intros [Hn Hs] Hreps. destruct Hreps as [|r reps' Hr Hreps'].
    + by split.
    + split; [done | by apply IH].
Qed.

Lemma relabel_nil toks : relabel toks [] = toks.
Proof. induction toks as [|[c|ds] rest IH]; simpl; congruence. Qed.

Lemma relabel_relabel toks reps :
  length reps = length (cite_values toks) →
  relabel (relabel toks reps) reps = relabel toks reps.
Proof.
  revert reps. induction toks as [|[c|ds] rest IH]; intros reps; [done| |].
  - simpl. intros ?. f_equal. by apply IH.
  - destruct reps as [|r reps']; [done|]. simpl. intros [= ?].
    f_equal. by apply IH.
Qed.

Lemma length_tok_matches pos toks :
  length (tok_matches pos toks) = length (cite_values toks).
Proof.
  revert pos. induction toks as [|[c|ds] rest IH]; intros pos; simpl; auto.
Qed.

Lemma raw_tok_matches pos toks :
  (λ m, Z.of_N (int_of_digits (m_group1 m))) <$> tok_matches pos toks
  = cite_values toks.
Proof.
  revert pos. induction toks as [|[c|ds] rest IH]; intros pos; simpl;
    [done | apply IH | by rewrite IH].
Qed.

Lemma tok_matches_bounds pos toks m :
  m ∈ tok_matches pos toks →
  pos ≤ m_start m ∧ m_end m = m_start m + (length (m_group1 m) + 2)
  ∧ m_end m ≤ pos + length (flatten toks).
Proof.
  revert pos.
  induction toks as [|[c|ds] rest IH]; intros pos; cbn [tok_matches].
  - by intros ?%elem_of_nil.
  - intros Hm%IH. rewrite flatten_cons, length_app. simpl. lia.
  - rewrite flatten_cons, length_app. cbn [tok_text]. rewrite length_cons, length_app.
    intros [->|Hm%IH]%elem_of_cons; simpl in *; lia.
Qed.

(** ** The right-to-left replacement *)

Lemma splice_at (pre old new rest : list ascii) :
  splice (pre ++ old ++ rest) (length pre) (length pre + length old) new
  = pre ++ new ++ rest.
Proof.
  unfold splice. rewrite take_app_length. f_equal. f_equal.
  rewrite Nat.max_r by lia. rewrite app_assoc.
  apply drop_app_length'. by rewrite length_app.
Qed.

Lemma splice_relabel toks pre news :
  length news = length (cite_values toks) →
  foldr (λ item chars, replace_item chars item) (pre ++ flatten toks)
    (labeled_of (tok_matches (length pre) toks) news)
  = pre ++ flatten (relabel toks (str_of_Z <$> news)).
Proof.
  revert pre news. induction toks as [|[c|ds] rest IH]; intros pre news.
  - by destruct news.
  - intros Hlen. cbn [tok_matches relabel]. rewrite !flatten_cons.
    cbn [tok_text]. rewrite !(app_assoc pre [c]).
    rewrite <- (IH (pre ++ [c]) news Hlen).
    rewrite length_app. simpl. by rewrite Nat.add_1_r.
  - destruct news as [|v news']; [done|]. intros [= Hlen].
    cbn [tok_matches labeled_of zip_with foldr fmap list_fmap relabel].
    rewrite !flatten_cons.
    specialize (IH (pre ++ tok_text (Cite ds)) news' Hlen).
    rewrite <- !app_assoc in IH.
    replace (length (pre ++ tok_text (Cite ds)))
      with (length pre + (length ds + 2)) in IH
      by (rewrite length_app; simpl; rewrite length_app; simpl; lia).
    unfold labeled_of in IH. rewrite IH.
    unfold replace_item; simpl.
    replace (length ds + 2) with (length (lbracket :: ds ++ [rbracket]))
      by (simpl; rewrite length_app; simpl; lia).
    apply (splice_at pre (lbracket :: ds ++ [rbracket])).
Qed.

(** ** Sorting a list that is already in ascending order *)

Section Sorting.
Context {A : Type} (key : A → nat).

Local Abbreviation ascending :=
  (StronglySorted (λ a b : A, key a < key b)).

Lemma sorted_by_ascending l : ascending l → sorted_by key l = l.
Proof.
  induction 1 as [|x l Hl IH Hx]; [done|].
  unfold sorted_by in *. cbn [foldr]. rewrite IH.
  destruct l as [|y l']; [done|]. simpl.
  apply Forall_cons in Hx as [Hxy _].
  by rewrite (proj2 (Nat.leb_le _ _)) by lia.
Qed.

Lemma insert_by_desc_last x l :
  Forall (λ y, key x < key y) l → insert_by_desc key x l = l ++ [x].
Proof.
  induction 1 as [|y l Hy _ IH]; [done|]. simpl.
  rewrite (proj2 (Nat.leb_gt _ _)) by lia. by rewrite IH.
Qed.

Lemma sorted_by_desc_ascending l : ascending l → sorted_by_desc key l = rev l.
Proof.
  induction 1 as [|x l Hl IH Hx]; [done|].
  unfold sorted_by_desc in *. cbn [foldr rev]. rewrite IH.
  apply insert_by_desc_last. rewrite Forall_forall in *.
  intros y Hy%list_elem_of_In%in_rev%list_elem_of_In. by apply Hx.
Qed.
End Sorting.

Lemma labeled_of_ascending pos toks news :
  StronglySorted (λ a b, l_startIndex a < l_startIndex b)
    (labeled_of (tok_matches pos toks) news)
  ∧ Forall (λ a, pos ≤ l_startIndex a) (labeled_of (tok_matches pos toks) news).
Proof.
  revert pos news.
  induction toks as [|[c|ds] rest IH]; intros pos news; cbn [tok_matches].
  - split; constructor.
  - destruct (IH (S pos) news) as [IH1 IH2]. split; [done|].
    eapply Forall_impl; [exact IH2|]. simpl; lia.
  - destruct news as [|v news']; [split; constructor|].
    destruct (IH (pos + (length ds + 2)) news') as [IH1 IH2].
    unfold labeled_of in *. cbn [zip_with]. split.
    + constructor; [done|].
      eapply Forall_impl; [exact IH2|]. simpl; lia.
    + constructor; [simpl; lia|].
      eapply Forall_impl; [exact IH2|]. simpl; lia.
Qed.

Lemma tok_matches_ascending pos toks :
  StronglySorted (λ a b, m_start a < m_start b) (tok_matches pos toks)
  ∧ Forall (λ a, pos ≤ m_start a) (tok_matches pos toks).
Proof.
  revert pos.
  induction toks as [|[c|ds] rest IH]; intros pos; cbn [tok_matches].
  - split; constructor.
  - destruct (IH (S pos)) as [IH1 IH2]. split; [done|].
    eapply Forall_impl; [exact IH2|]. simpl; lia.
  - destruct (IH (pos + (length ds + 2))) as [IH1 IH2]. split.
    + constructor; [done|].
      eapply Forall_impl; [exact IH2|]. simpl; lia.
    + constructor; [simpl; lia|].
      eapply Forall_impl; [exact IH2|]. simpl; lia.
Qed.

Lemma StronglySorted_fmap {A B} (f : A → B) (R : B → B → Prop) l :
  StronglySorted (λ a b, R (f a) (f b)) l → StronglySorted R (f <$> l).
Proof.
  induction 1 as [|x l Hl IH Hx]; [constructor|].
  cbn. constructor; [done|]. by apply Forall_fmap.
Qed.

(** ** The labelling loop *)

Lemma label_loop_assign old_to_new next cs :
  label_loop old_to_new next cs
  = Some (zip_with (λ (c : Citation * nat * nat) v,
                      mkLabeled (index c.1.1) v c.1.2 c.2)
            cs (assign old_to_new next ((λ c, index c.1.1) <$> cs))).
Proof.
  revert old_to_new next.
  induction cs as [|[[cit s] e] rest IH]; intros old_to_new next; [done|].
  cbn [label_loop assign fmap list_fmap fst snd].
  destruct (old_to_new !! index cit) as [v|] eqn:Hv.
  - rewrite Hv. cbn. rewrite IH. reflexivity.
  - rewrite lookup_insert_eq. cbn. rewrite IH. reflexivity.
Qed.

(** ** The scanner on a text *)

Lemma mapM_total {A B} (f : A → option B) (g : A → B) l :
  (∀ x, x ∈ l → f x = Some (g x)) → mapM f l = Some (g <$> l).
Proof.
  induction l as [|x l IH]; intros Hf; [done|].
  cbn. rewrite Hf by left. cbn. rewrite IH; [done|].
  intros y Hy. apply Hf. by right.
Qed.

Lemma scan_back_is_Some full_text s :
  s < length full_text → is_Some (scan_back full_text s).
Proof.
  induction s as [|s' IH]; intros Hs; [by eexists|].
  cbn [scan_back].
  destruct (lookup_lt_is_Some_2 full_text (S s') Hs) as [c ->]. cbn.
  destruct (is_ender c); [by eexists | apply IH; lia].
Qed.

Lemma finditer_bounds text m :
  m ∈ finditer text →
  m_end m = m_start m + (length (m_group1 m) + 2) ∧ m_end m ≤ length text.
Proof.
  rewrite finditer_tokens. intros (_ & He & Hle)%tok_matches_bounds.
  by rewrite flatten_tokenize in Hle.
Qed.

Lemma extract_one_eq text m :
  m ∈ finditer text → extract_one text m = Some (cit_of_match text m).
Proof.
  intros [He Hle]%finditer_bounds.
  unfold extract_one, cit_of_match, _expand_citation_span_to_sentence.
  destruct (scan_back_is_Some text (m_start m)) as [ss ->]; [lia|]. done.
Qed.

Lemma extract_citations_eq text :
  extract_citations text = Some (cit_of_match text <$> finditer text).
Proof. apply mapM_total, extract_one_eq. Qed.

Lemma with_offsets_scanned text ms :
  mapM with_offsets (cit_of_match text <$> ms)
  = Some ((λ m, (cit_of_match text m, m_start m, m_end m)) <$> ms).
Proof.
  induction ms as [|m ms IH]; [done|].
  cbn [fmap list_fmap mapM]. rewrite IH.
  unfold with_offsets, cit_of_match, scanned_citation; cbn.
  rewrite !decide_True by lia. cbn. by rewrite !Nat2Z.id.
Qed.

(** ** The renumberer on a scanned text *)

Lemma length_assign old_to_new next raws :
  length (assign old_to_new next raws) = length raws.
Proof.
  revert old_to_new next. induction raws as [|r rest IH]; intros m next; [done|].
  simpl. destruct (m !! r); simpl; by rewrite IH.
Qed.

Lemma fold_left_rev {A B} (f : B → A → B) (l : list A) (i : B) :
  fold_left f (rev l) i = foldr (λ x acc, f acc x) i l.
Proof.
  rewrite <- (rev_involutive l) at 2.
  symmetry. apply (fold_left_rev_right (λ x acc, f acc x)).
Qed.

Lemma with_offsets_fst text ms :
  ((λ m, (cit_of_match text m, m_start m, m_end m)) <$> ms).*1.*1
  = cit_of_match text <$> ms.
Proof. rewrite <- !list_fmap_compose. by apply list_fmap_ext. Qed.

Lemma with_offsets_ascending text pos toks :
  StronglySorted (λ a b : Citation * nat * nat, a.1.2 < b.1.2)
    ((λ m, (cit_of_match text m, m_start m, m_end m)) <$> tok_matches pos toks).
Proof. apply StronglySorted_fmap. apply tok_matches_ascending. Qed.

Lemma reassign_scanned text :
  reassign_citations_in_order text (cit_of_match text <$> finditer text)
  = Some (renumbered_text text, renumbered_citations text).
Proof.
  unfold reassign_citations_in_order, renumbered_citations, renumbered_text.
  pose proof (raw_tok_matches 0 (tokenize text)) as Hraw.
  pose proof (length_tok_matches 0 (tokenize text)) as Hlen.
  rewrite <- finditer_tokens in Hraw, Hlen.
  destruct (cit_of_match text <$> finditer text) as [|c cs] eqn:Hc.
  - apply fmap_nil_inv in Hc. rewrite Hc in *.
    simpl in Hlen. destruct (cite_values (tokenize text)); [|done].
    simpl. by rewrite relabel_nil, flatten_tokenize.
  - lazy beta iota. rewrite <- Hc. clear c cs Hc.
    rewrite with_offsets_scanned. cbn [mbind option_bind].
    rewrite finditer_tokens at 1 2.
    rewrite (sorted_by_ascending _ _ (with_offsets_ascending _ _ _)).
    rewrite label_loop_assign. cbn [mbind option_bind].
    rewrite <- list_fmap_compose, zip_with_fmap_l.
    change ((λ c : Citation * nat * nat, index c.1.1)
              ∘ (λ m, (cit_of_match text m, m_start m, m_end m)))
      with (λ m, Z.of_N (int_of_digits (m_group1 m))).
    rewrite <- finditer_tokens, Hraw.
    set (news := assign ∅ 1%Z (cite_values (tokenize text))).
    change (zip_with _ (finditer text) news) with (labeled_of (finditer text) news).
    set (L := labeled_of (finditer text) news).
    assert (StronglySorted (λ a b, l_startIndex a < l_startIndex b) L) as HL.
    { unfold L. rewrite finditer_tokens. apply labeled_of_ascending. }
    rewrite (sorted_by_desc_ascending _ _ HL), (sorted_by_ascending _ _ HL).
    rewrite fold_left_rev.
    assert (foldr (λ x acc, replace_item acc x) text L
            = flatten (relabel (tokenize text) (str_of_Z <$> news))) as ->.
    { unfold L. rewrite finditer_tokens.
      rewrite <- (flatten_tokenize text) at 1.
      apply (splice_relabel (tokenize text) [] news).
      unfold news. by rewrite length_assign. }
    set (new_text := flatten _).
    rewrite extract_citations_eq. cbn [mbind option_bind].
    rewrite with_offsets_scanned. cbn [mbind option_bind].
    rewrite finditer_tokens at 1.
    rewrite (sorted_by_ascending _ _ (with_offsets_ascending _ _ _)).
    rewrite with_offsets_fst, <- finditer_tokens. reflexivity.
Qed.

(** ** The numbers handed out by the labelling loop *)

Lemma first_seen_from_extends seen l :
  ∃ ext, first_seen_from seen l = seen ++ ext.
Proof.
  revert seen. induction l as [|x rest IH]; intros seen; simpl.
  - exists []. by rewrite app_nil_r.
  - destruct (decide (x ∈ seen)); [apply IH|].
    destruct (IH (seen ++ [x])) as [ext ->].
    exists ([x] ++ ext). by rewrite app_assoc.
Qed.

Lemma first_seen_from_lookup seen l i x :
  seen !! i = Some x → first_seen_from seen l !! i = Some x.
Proof.
  intros Hi. destruct (first_seen_from_extends seen l) as [ext ->].
  by apply lookup_app_l_Some.
Qed.

Lemma first_seen_from_NoDup seen l :
  NoDup seen → NoDup (first_seen_from seen l).
Proof.
  revert seen. induction l as [|x rest IH]; intros seen Hnd; simpl; [done|].
  destruct (decide (x ∈ seen)); [by apply IH|].
  apply IH. apply NoDup_app. repeat split; [done| |apply NoDup_singleton].
  intros y Hy ->%list_elem_of_singleton. done.
Qed.

Lemma first_seen_from_elem seen l x :
  x ∈ first_seen_from seen l ↔ x ∈ seen ∨ x ∈ l.
Proof.
  revert seen. induction l as [|y rest IH]; intros seen; simpl.
  - rewrite elem_of_nil. tauto.
  - destruct (decide (y ∈ seen)); rewrite IH, elem_of_cons.
    + split; [tauto|]. intros [?|[->|?]]; tauto.
    + rewrite elem_of_app, list_elem_of_singleton. tauto.
Qed.

Lemma numbered_empty : numbered ∅ 1%Z [].
Proof.
  split; [constructor|]. split; [done|]. intros k v.
  rewrite lookup_empty, lookup_nil. split; [done | by intros [_ ?]].
Qed.

Lemma numbered_seen old_to_new next seen k v :
  numbered old_to_new next seen → old_to_new !! k = Some v → k ∈ seen.
Proof.
  intros (_ & _ & Hm) [_ Hk]%Hm. by eapply list_elem_of_lookup_2.
Qed.

Lemma numbered_unseen old_to_new next seen k :
  numbered old_to_new next seen → old_to_new !! k = None → k ∉ seen.
Proof.
  intros (_ & _ & Hm) Hnone [i Hi]%list_elem_of_lookup_1.
  assert (old_to_new !! k = Some (Z.of_nat i + 1)%Z) as Hk.
  { apply Hm. split; [lia|].
    by replace (Z.to_nat (Z.of_nat i + 1 - 1)) with i by lia. }
  congruence.
Qed.

Lemma numbered_insert old_to_new next seen k :
  numbered old_to_new next seen → old_to_new !! k = None →
  numbered (<[k := next]> old_to_new) (next + 1) (seen ++ [k]).
Proof.
  intros Hnum Hnone. pose proof (numbered_unseen _ _ _ _ Hnum Hnone) as Hk.
  destruct Hnum as (Hnd & -> & Hm). split; [|split].
  - apply NoDup_app. repeat split; [done| |apply NoDup_singleton].
    by intros y Hy ->%list_elem_of_singleton.
  - rewrite length_app. simpl. lia.
  - intros k' v. destruct (decide (k = k')) as [<-|Hne].
    + rewrite lookup_insert_eq. split.
      * intros [= <-]. split; [lia|].
        replace (Z.to_nat (1 + Z.of_nat (length seen) - 1)) with (length seen)
          by lia.
        by rewrite lookup_app_r, Nat.sub_diag by lia.
      * intros [Hv Hl]. f_equal.
        apply lookup_app_Some in Hl as [Hl|[Hge Hl]].
        -- exfalso. apply Hk. by eapply list_elem_of_lookup_2.
        -- apply lookup_lt_Some in Hl. simpl in Hl. lia.
    + rewrite lookup_insert_ne by done. rewrite Hm. split.
      * intros [Hv Hl]. split; [done|]. by apply lookup_app_l_Some.
      * intros [Hv Hl]. split; [done|].
        apply lookup_app_Some in Hl as [Hl|[Hge Hl]]; [done|].
        apply list_lookup_singleton_Some in Hl as [_ ?]. congruence.
Qed.

Lemma assign_first_seen old_to_new next seen raws i r v :
  numbered old_to_new next seen →
  raws !! i = Some r → assign old_to_new next raws !! i = Some v →
  (1 ≤ v)%Z ∧ first_seen_from seen raws !! Z.to_nat (v - 1) = Some r.
Proof.
  revert old_to_new next seen i.
  induction raws as [|r0 rest IH]; intros m next seen i Hnum; [done|].
  cbn [assign first_seen_from].
  destruct (m !! r0) as [v0|] eqn:Hr0.
  - rewrite decide_True by (by eapply numbered_seen).
    destruct i as [|j]; [|by apply IH].
    intros [= <-] [= <-]. destruct Hnum as (_ & _ & Hm).
    apply Hm in Hr0 as [Hv Hl]. split; [done|].
    by apply first_seen_from_lookup.
  - rewrite decide_False by (by eapply numbered_unseen).
    pose proof (numbered_insert _ _ _ _ Hnum Hr0) as Hnum'.
    destruct i as [|j]; [|by apply (IH _ _ _ j Hnum')].
    intros [= <-] [= <-]. destruct Hnum as (_ & -> & _). split; [lia|].
    apply first_seen_from_lookup.
    replace (Z.to_nat (1 + Z.of_nat (length seen) - 1)) with (length seen)
      by lia.
    by rewrite lookup_app_r, Nat.sub_diag by lia.
Qed.

Lemma assign_ge_1 old_to_new next raws :
  (∀ k v, old_to_new !! k = Some v → (1 ≤ v)%Z) → (1 ≤ next)%Z →
  Forall (λ v, (1 ≤ v)%Z) (assign old_to_new next raws).
Proof.
  revert old_to_new next.
  induction raws as [|r rest IH]; intros m next Hm Hnext; [constructor|].
  simpl. destruct (m !! r) as [v|] eqn:Hr.
  - constructor; [by eapply Hm | by apply IH].
  - constructor; [done|]. apply IH; [|lia].
    intros k v. destruct (decide (r = k)) as [<-|Hne].
    + rewrite lookup_insert_eq. by intros [= <-].
    + rewrite lookup_insert_ne by done. apply Hm.
Qed.

Lemma assign_first_use_order old_to_new next raws :
  (∀ k v, old_to_new !! k = Some v → (1 ≤ v < next)%Z) → (1 ≤ next)%Z →
  first_use_order (next - 1) (assign old_to_new next raws).
Proof.
  revert old_to_new next.
  induction raws as [|r rest IH]; intros m next Hm Hnext; [done|].
  simpl. destruct (m !! r) as [v|] eqn:Hr.
  - left. split; [apply Hm in Hr; lia | by apply IH].
  - right. split; [lia|].
    replace (next - 1 + 1)%Z with (next + 1 - 1)%Z by lia.
    apply IH; [|lia]. intros k v. destruct (decide (r = k)) as [<-|Hne].
    + rewrite lookup_insert_eq. intros [= <-]. lia.
    + rewrite lookup_insert_ne by done. intros Hk%Hm. lia.
Qed.

Lemma assign_fixed n xs old_to_new :
  (0 ≤ n)%Z → first_use_order n xs →
  (∀ k v, old_to_new !! k = Some v ↔ k = v ∧ (1 ≤ k ≤ n)%Z) →
  assign old_to_new (n + 1) xs = xs.
Proof.
  revert n old_to_new.
  induction xs as [|x rest IH]; intros n m Hn Hxs Hm; [done|].
  simpl. destruct Hxs as [[Hx Hrest]|[-> Hrest]].
  - assert (m !! x = Some x) as -> by (by apply Hm).
    f_equal. by apply IH.
  - destruct (m !! (n + 1)%Z) as [v|] eqn:Hv;
      [apply Hm in Hv; lia|].
    f_equal. apply IH; [lia|done|]. intros k v.
    destruct (decide ((n + 1)%Z = k)) as [<-|Hne].
    + rewrite lookup_insert_eq. split; [intros [= <-]; lia|].
      intros [<- _]. done.
    + rewrite lookup_insert_ne by done. rewrite Hm. split; intros [? ?]; split; lia.
Qed.

Lemma assign_assign raws :
  assign ∅ 1%Z (assign ∅ 1%Z raws) = assign ∅ 1%Z raws.
Proof.
  apply (assign_fixed 0); [done| |].
  - apply (assign_first_use_order ∅ 1%Z); [|done].
    by intros k v; rewrite lookup_empty.
  - intros k v. rewrite lookup_empty. split; [done | lia].
Qed.

(** ** The relabeled text and its citations *)

Lemma news_numerals raws : Forall numeral (str_of_Z <$> assign ∅ 1%Z raws).
Proof.
  apply Forall_fmap.
  eapply Forall_impl; [apply (assign_ge_1 ∅ 1%Z raws); [|done]|].
  - by intros k v; rewrite lookup_empty.
  - intros v Hv. simpl in *. rewrite str_of_Z_nonneg by lia.
    apply str_of_N_numeral.
Qed.

Lemma cite_values_relabel_Z toks news :
  Forall (λ v, (1 ≤ v)%Z) news →
  length news = length (cite_values toks) →
  cite_values (relabel toks (str_of_Z <$> news)) = news.
Proof.
  intros Hnews. revert toks.
  induction Hnews as [|v news Hv _ IH]; intros toks.
  - intros Hlen. simpl. rewrite relabel_nil. by destruct (cite_values toks).
  - induction toks as [|[c|ds] rest IHt]; [done| |].
    + simpl. apply IHt.
    + simpl. intros [= Hlen]. rewrite IH by done.
      rewrite str_of_Z_nonneg, int_of_str_of_N by lia. f_equal. lia.
Qed.

Lemma tokenize_renumbered text :
  tokenize (renumbered_text text)
  = relabel (tokenize text)
      (str_of_Z <$> assign ∅ 1%Z (cite_values (tokenize text))).
Proof.
  apply tokenize_flatten, scanned_relabel;
    [apply scanned_tokenize_at | apply news_numerals].
Qed.

Lemma cite_values_renumbered text :
  cite_values (tokenize (renumbered_text text))
  = assign ∅ 1%Z (cite_values (tokenize text)).
Proof.
  rewrite tokenize_renumbered. apply cite_values_relabel_Z.
  - apply assign_ge_1; [|done]. by intros k v; rewrite lookup_empty.
  - apply length_assign.
Qed.

Lemma renumbered_text_fixed text :
  renumbered_text (renumbered_text text) = renumbered_text text.
Proof.
  unfold renumbered_text at 1.
  rewrite cite_values_renumbered, assign_assign, tokenize_renumbered.
  rewrite relabel_relabel; [done|].
  by rewrite length_fmap, length_assign.
Qed.

Lemma fmap_zip_with_left {A B C D} (g : C → D) (h : A → D) (f : A → B → C)
    (l : list A) (k : list B) :
  (∀ x y, g (f x y) = h x) → length l ≤ length k →
  g <$> zip_with f l k = h <$> l.
Proof.
  intros Hg. revert k. induction l as [|x l IH]; intros [|y k] Hlen;
    simpl in *; try done; try lia.
  rewrite Hg, IH by lia. done.
Qed.

Lemma length_finditer text :
  length (finditer text) = length (cite_values (tokenize text)).
Proof. rewrite finditer_tokens. apply length_tok_matches. Qed.

Lemma raw_finditer text :
  (λ m, Z.of_N (int_of_digits (m_group1 m))) <$> finditer text
  = cite_values (tokenize text).
Proof. rewrite finditer_tokens. apply raw_tok_matches. Qed.

Lemma length_rescanned text :
  length (finditer (renumbered_text text)) = length (finditer text).
Proof.
  by rewrite !length_finditer, cite_values_renumbered, length_assign.
Qed.

Lemma length_labeled text :
  length (labeled_of (finditer text)
            (assign ∅ 1%Z (cite_values (tokenize text))))
  = length (finditer text).
Proof.
  unfold labeled_of. rewrite length_zip_with_l_eq; [done|].
  by rewrite length_finditer, length_assign.
Qed.

Lemma length_renumbered_citations text :
  length (renumbered_citations text) = length (finditer text).
Proof.
  unfold renumbered_citations. rewrite length_zip_with_l_eq.
  - apply length_labeled.
  - by rewrite length_labeled, length_fmap, length_rescanned.
Qed.

Lemma renumbered_index text :
  index <$> renumbered_citations text
  = assign ∅ 1%Z (cite_values (tokenize text)).
Proof.
  unfold renumbered_citations.
  rewrite (fmap_zip_with_left index l_newIndex); [|done|].
  - unfold labeled_of. apply fmap_zip_with_r; [done|].
    by rewrite length_finditer, length_assign.
  - by rewrite length_labeled, length_fmap, length_rescanned.
Qed.

Lemma renumbered_rawIndex text :
  rawIndex <$> renumbered_citations text
  = Some <$> cite_values (tokenize text).
Proof.
  unfold renumbered_citations.
  rewrite (fmap_zip_with_left rawIndex (Some ∘ l_rawIndex)); [|done|].
  - rewrite list_fmap_compose. f_equal. unfold labeled_of.
    rewrite (fmap_zip_with_left l_rawIndex
               (λ m, Z.of_N (int_of_digits (m_group1 m)))); [|done|].
    + apply raw_finditer.
    + by rewrite length_finditer, length_assign.
  - by rewrite length_labeled, length_fmap, length_rescanned.
Qed.

Lemma index_cit_of_match text (ms : list Match) :
  index <$> (cit_of_match text <$> ms)
  = (λ m, Z.of_N (int_of_digits (m_group1 m))) <$> ms.
Proof. by rewrite <- list_fmap_compose. Qed.

Lemma renumbered_citation_at text i c :
  renumbered_citations text !! i = Some c →
  ∃ r, cite_values (tokenize text) !! i = Some r
       ∧ rawIndex c = Some r
       ∧ assign ∅ 1%Z (cite_values (tokenize text)) !! i = Some (index c).
Proof.
  intros Hc.
  pose proof (f_equal (.!! i) (renumbered_index text)) as Hi.
  pose proof (f_equal (.!! i) (renumbered_rawIndex text)) as Hr.
  cbn beta in Hi, Hr. rewrite list_lookup_fmap, Hc in Hi.
  rewrite !list_lookup_fmap, Hc in Hr. cbn in Hi, Hr.
  destruct (cite_values (tokenize text) !! i) as [r|]; [|done].
  exists r. by injection Hr as ->.
Qed.

Lemma StronglySorted_lookup {A} (R : A → A → Prop) l i j a b :
  StronglySorted R l → i < j → l !! i = Some a → l !! j = Some b → R a b.
Proof.
  intros Hl. revert i j. induction Hl as [|x l Hl IH Hx]; intros i j Hij; [done|].
  destruct j as [|j]; [lia|]. destruct i as [|i]; simpl.
  - intros [= <-] Hb. rewrite Forall_forall in Hx.
    apply Hx. by eapply list_elem_of_lookup_2.
  - apply IH. lia.
Qed.

Lemma scanned_citations_ascending text i j a b :
  i < j →
  (cit_of_match text <$> finditer text) !! i = Some a →
  (cit_of_match text <$> finditer text) !! j = Some b →
  ∃ s s', startIndex a = Some s ∧ startIndex b = Some s' ∧ (s < s')%Z.
Proof.
  intros Hij. rewrite !list_lookup_fmap.
  destruct (finditer text !! i) as [m|] eqn:Hm; [|done].
  destruct (finditer text !! j) as [m'|] eqn:Hm'; [|done].
  intros [= <-] [= <-].
  exists (Z.of_nat (m_start m)), (Z.of_nat (m_start m')).
  repeat split. apply inj_lt.
  rewrite finditer_tokens in Hm, Hm'.
  by apply (StronglySorted_lookup _ _ i j m m'
              (proj1 (tok_matches_ascending 0 (tokenize text)))).
Qed.

(** ** The renumberer: numbering by first appearance *)

(** C1. For a text and its scanned citations, the renumberer returns one
    citation per scanned occurrence, in scan order (ascending start
    position), each carrying the raw bracket value as [rawIndex] and a new
    [index]; the new index of a citation is one plus the position of its raw
    value in the duplicate-free list of raw values in order of first
    appearance, so that the indices are exactly 1..U for U distinct raw
    values, and two citations have the same index if and only if they have
    the same raw value. *)
Theorem reassign_numbers_by_first_appearance (text : list ascii) :
  ∃ cits new_text out,
    extract_citations text = Some cits
    ∧ reassign_citations_in_order text cits = Some (new_text, out)
    ∧ (∀ i j a b, i < j → cits !! i = Some a → cits !! j = Some b →
         ∃ s s', startIndex a = Some s ∧ startIndex b = Some s' ∧ (s < s')%Z)
    ∧ rawIndex <$> out = Some ∘ index <$> cits
    ∧ NoDup (first_seen (index <$> cits))
    ∧ (∀ r, r ∈ first_seen (index <$> cits) ↔ r ∈ index <$> cits)
    ∧ (∀ c, c ∈ out →
         (1 ≤ index c)%Z
         ∧ ∃ r, rawIndex c = Some r
                ∧ first_seen (index <$> cits) !! Z.to_nat (index c - 1)
                  = Some r)
    ∧ (∀ k, (∃ c, c ∈ out ∧ index c = k)
            ↔ (1 ≤ k ≤ Z.of_nat (length (first_seen (index <$> cits))))%Z)
    ∧ (∀ c c', c ∈ out → c' ∈ out →
         index c = index c' ↔ rawIndex c = rawIndex c').
Proof.
  exists (cit_of_match text <$> finditer text),
         (renumbered_text text), (renumbered_citations text).
  rewrite index_cit_of_match, raw_finditer.
  set (raws := cite_values (tokenize text)).
  assert (NoDup (first_seen raws)) as Hnd
    by (apply first_seen_from_NoDup; constructor).
  assert (∀ c, c ∈ renumbered_citations text →
            (1 ≤ index c)%Z
            ∧ ∃ r, rawIndex c = Some r ∧ r ∈ raws
                   ∧ first_seen raws !! Z.to_nat (index c - 1) = Some r)
    as Hchar.
  { intros c [i Hi]%list_elem_of_lookup_1.
    apply renumbered_citation_at in Hi as (r & Hr & Hraw & Hnew).
    destruct (assign_first_seen ∅ 1%Z [] raws i r (index c) numbered_empty
                Hr Hnew) as [Hge Hfs].
    split; [done|]. exists r. repeat split; [done| |done].
    by eapply list_elem_of_lookup_2. }
  split; [apply extract_citations_eq|].
  split; [apply reassign_scanned|].
  split; [apply scanned_citations_ascending|].
  split.
  { rewrite renumbered_rawIndex, list_fmap_compose, index_cit_of_match.
    by rewrite raw_finditer. }
  split; [done|].
  split.
  { intros r. unfold first_seen. rewrite first_seen_from_elem, elem_of_nil.
    tauto. }
  split.
  { intros c Hc. destruct (Hchar c Hc) as (? & r & ? & ? & ?). eauto. }
  split.
  { intros k. split.
    - intros (c & Hc & <-).
      destruct (Hchar c Hc) as (Hge & r & _ & _ & Hl).
      apply lookup_lt_Some in Hl. lia.
    - intros Hk.
      destruct (lookup_lt_is_Some_2 (first_seen raws) (Z.to_nat (k - 1)))
        as [r Hr]; [lia|].
      assert (r ∈ raws) as [i Hi]%list_elem_of_lookup_1.
      { apply list_elem_of_lookup_2 in Hr. unfold first_seen in Hr.
        rewrite first_seen_from_elem, elem_of_nil in Hr. tauto. }
      destruct (lookup_lt_is_Some_2 (renumbered_citations text) i) as [c Hc].
      { rewrite length_renumbered_citations, length_finditer.
        by eapply lookup_lt_Some. }
      exists c. split; [by eapply list_elem_of_lookup_2|].
      pose proof Hc as (r' & Hr' & _ & Hnew)%renumbered_citation_at.
      fold raws in Hr', Hnew. rewrite Hi in Hr'. injection Hr' as <-.
      destruct (assign_first_seen ∅ 1%Z [] raws i r (index c) numbered_empty
                  Hi Hnew) as [Hge Hfs].
      pose proof (NoDup_lookup _ _ _ _ Hnd Hfs Hr). lia. }
  intros c c' Hc Hc'.
  destruct (Hchar c Hc) as (Hge & r & Hr & _ & Hl).
  destruct (Hchar c' Hc') as (Hge' & r' & Hr' & _ & Hl').
  rewrite Hr, Hr'. split.
  - intros Heq. rewrite Heq in Hl. congruence.
  - intros [= <-]. pose proof (NoDup_lookup _ _ _ _ Hnd Hl Hl'). lia.
Qed.

(** ** The renumberer: re-scanning its output *)

(** C3. Re-scanning the text that the renumberer returns yields exactly as
    many citations as the relabeled list it returns, in the same order: the
    i-th relabeled citation has the bracket number and the start, end and
    snippet offsets of the i-th re-scanned record. *)
Theorem rescan_agrees_with_relabeled (text : list ascii) :
  ∃ cits new_text relabeled rescanned,
    extract_citations text = Some cits
    ∧ reassign_citations_in_order text cits = Some (new_text, relabeled)
    ∧ extract_citations new_text = Some rescanned
    ∧ length rescanned = length relabeled
    ∧ length relabeled = length cits
    ∧ Forall2 (λ c u, index c = index u
                      ∧ startIndex c = startIndex u
                      ∧ endIndex c = endIndex u
                      ∧ snippetStartIndex c = snippetStartIndex u
                      ∧ snippetEndIndex c = snippetEndIndex u)
        relabeled rescanned.
Proof.
  exists (cit_of_match text <$> finditer text),
         (renumbered_text text), (renumbered_citations text),
         (cit_of_match (renumbered_text text)
            <$> finditer (renumbered_text text)).
  split; [apply extract_citations_eq|].
  split; [apply reassign_scanned|].
  split; [apply extract_citations_eq|].
  assert (length (cit_of_match (renumbered_text text)
                    <$> finditer (renumbered_text text))
          = length (renumbered_citations text)) as Hlen
    by (by rewrite length_fmap, length_rescanned,
             length_renumbered_citations).
  split; [done|].
  split; [by rewrite length_renumbered_citations, length_fmap|].
  apply Forall2_same_length_lookup_2; [done|].
  intros i c u Hc Hu.
  pose proof Hc as (r & _ & _ & Hnew)%renumbered_citation_at.
  pose proof (f_equal (.!! i)
                (index_cit_of_match (renumbered_text text)
                   (finditer (renumbered_text text)))) as Hidx.
  cbn beta in Hidx.
  rewrite raw_finditer, cite_values_renumbered, Hnew in Hidx.
  rewrite list_lookup_fmap, Hu in Hidx. injection Hidx as Hidx.
  unfold renumbered_citations in Hc.
  apply lookup_zip_with_Some in Hc as (l & u' & -> & Hl & Hu').
  rewrite Hu in Hu'. injection Hu' as <-. done.
Qed.

(** ** The renumberer: a second pass changes nothing *)

(** C10. Scanning and renumbering the text returned by a first
    scan-and-renumber pass returns that text unchanged, and every citation
    of the second pass has [rawIndex] equal to its [index]. *)
Theorem renumbering_is_idempotent (text : list ascii) :
  ∃ cits t1 out1 cits1 out2,
    extract_citations text = Some cits
    ∧ reassign_citations_in_order text cits = Some (t1, out1)
    ∧ extract_citations t1 = Some cits1
    ∧ reassign_citations_in_order t1 cits1 = Some (t1, out2)
    ∧ length out2 = length out1
    ∧ ∀ c, c ∈ out2 → rawIndex c = Some (index c).
Proof.
  exists (cit_of_match text <$> finditer text),
         (renumbered_text text), (renumbered_citations text),
         (cit_of_match (renumbered_text text)
            <$> finditer (renumbered_text text)),
         (renumbered_citations (renumbered_text text)).
  split; [apply extract_citations_eq|].
  split; [apply reassign_scanned|].
  split; [apply extract_citations_eq|].
  split; [by rewrite reassign_scanned, renumbered_text_fixed|].
  split; [by rewrite !length_renumbered_citations, length_rescanned|].
  intros c [i Hi]%list_elem_of_lookup_1.
  apply renumbered_citation_at in Hi as (r & Hr & -> & Hnew).
  rewrite cite_values_renumbered in Hr, Hnew.
  rewrite assign_assign in Hnew. congruence.
Qed.

(** ** Sentence expansion around a match *)

Lemma ws_run_spec l :
  ws_run l ≤ length l
  ∧ (∀ q c, q < ws_run l → l !! q = Some c → isspace c = true)
  ∧ (∀ c, l !! ws_run l = Some c → isspace c = false).
Proof.
  induction l as [|d tl (IH1 & IH2 & IH3)]; simpl.
  - split_and!; [lia | done | done].
  - destruct (isspace d) eqn:Hd.
    + split_and!; [lia | | done].
      intros [|q] c Hq; simpl; [by intros [= <-] | apply IH2; lia].
    + split_and!; [lia | intros; lia |]. by intros c [= <-].
Qed.

Lemma skip_space_spec full_text s :
  s ≤ skip_space full_text s
  ∧ (s ≤ length full_text → skip_space full_text s ≤ length full_text)
  ∧ (∀ q c, s ≤ q < skip_space full_text s → full_text !! q = Some c →
       isspace c = true)
  ∧ (∀ c, full_text !! skip_space full_text s = Some c → isspace c = false).
Proof.
  unfold skip_space.
  destruct (ws_run_spec (drop s full_text)) as (H1 & H2 & H3).
  rewrite length_drop in H1. repeat split; [lia | lia | |].
  - intros q c Hq Hc. apply (H2 (q - s)); [lia|].
    rewrite lookup_drop. by replace (s + (q - s)) with q by lia.
  - intros c Hc. apply H3. by rewrite lookup_drop.
Qed.

Lemma scan_back_spec full_text s ss :
  scan_back full_text s = Some ss →
  (∃ p c, 1 ≤ p ≤ s ∧ full_text !! p = Some c ∧ is_ender c = true
     ∧ (∀ q c', p < q ≤ s → full_text !! q = Some c' → is_ender c' = false)
     ∧ ss = skip_space full_text (S p))
  ∨ ((∀ q c', 1 ≤ q ≤ s → full_text !! q = Some c' → is_ender c' = false)
     ∧ ss = 0).
Proof.
  revert ss. induction s as [|s' IH]; intros ss; cbn [scan_back].
  - intros [= <-]. right. split; [intros; lia | done].
  - destruct (full_text !! S s') as [c|] eqn:Hc; [|done]. cbn.
    destruct (is_ender c) eqn:He.
    + intros [= <-]. left. exists (S s'), c.
      repeat split; [lia | lia | done | done | intros; lia].
    + intros [(p & c0 & Hp & Hc0 & He0 & Hno & ->)|[Hno ->]]%IH.
      * left. exists p, c0. repeat split; [lia | lia | done | done |].
        intros q c' Hq Hc'. destruct (decide (q = S s')) as [->|];
          [congruence | apply (Hno q); [lia | done]].
      * right. split; [|done].
        intros q c' Hq Hc'. destruct (decide (q = S s')) as [->|];
          [congruence | apply (Hno q); [lia | done]].
Qed.

Lemma fwd_run_spec l :
  (∃ p c, l !! p = Some c ∧ is_ender c = true
     ∧ (∀ q c', q < p → l !! q = Some c' → is_ender c' = false)
     ∧ fwd_run l = S p + ws_run (drop (S p) l))
  ∨ ((∀ q c', l !! q = Some c' → is_ender c' = false)
     ∧ fwd_run l = length l).
Proof.
  induction l as [|d tl IH]; simpl.
  - right. by split.
  - destruct (is_ender d) eqn:Hd.
    + left. exists 0, d. repeat split; [done | intros; lia].
    + destruct IH as [(p & c & Hc & He & Hno & ->)|[Hno ->]].
      * left. exists (S p), c. repeat split; [done | done |].
        intros [|q] c' Hq; simpl; [by intros [= <-] | apply Hno; lia].
      * right. split; [|done].
        intros [|q] c'; simpl; [by intros [= <-] | apply Hno].
Qed.

Lemma scan_fwd_spec full_text e :
  e ≤ length full_text → snippet_end_rel full_text e (scan_fwd full_text e).
Proof.
  intros He. unfold scan_fwd, snippet_end_rel.
  destruct (fwd_run_spec (drop e full_text))
    as [(p & c & Hc & Hend & Hno & ->)|[Hno ->]].
  - left. exists (e + p), c. rewrite lookup_drop in Hc.
    rewrite drop_drop.
    destruct (skip_space_spec full_text (e + S p)) as (H1 & H2 & H3 & H4).
    unfold skip_space in *. apply lookup_lt_Some in Hc as Hlt.
    repeat split; [lia | done | done | | lia | lia | |].
    + intros q c' Hq Hc'. apply (Hno (q - e)); [lia|].
      rewrite lookup_drop. by replace (e + (q - e)) with q by lia.
    + intros q c' Hq. apply H3. lia.
    + intros c'. rewrite Nat.add_assoc. apply H4.
  - right. rewrite length_drop. split; [|lia].
    intros q c' Hq Hc'. apply (Hno (q - e)).
    rewrite lookup_drop. by replace (e + (q - e)) with q by lia.
Qed.

Lemma tok_matches_lbracket pos toks m :
  m ∈ tok_matches pos toks →
  flatten toks !! (m_start m - pos) = Some lbracket.
Proof.
  revert pos.
  induction toks as [|[c|ds] rest IH]; intros pos; cbn [tok_matches].
  - by intros ?%elem_of_nil.
  - intros Hm. pose proof (tok_matches_bounds _ _ _ Hm) as [Hle _].
    apply IH in Hm. rewrite flatten_cons. cbn [tok_text app].
    by replace (m_start m - pos) with (S (m_start m - S pos)) by lia.
  - intros [->|Hm]%elem_of_cons.
    + simpl. by rewrite Nat.sub_diag.
    + pose proof (tok_matches_bounds _ _ _ Hm) as [Hle _].
      apply IH in Hm. rewrite flatten_cons.
      rewrite lookup_app_r
        by (cbn [tok_text]; rewrite length_cons, length_app; simpl; lia).
      rewrite <- Hm. f_equal.
      cbn [tok_text]. rewrite length_cons, length_app. simpl. lia.
Qed.

Lemma finditer_lbracket text m :
  m ∈ finditer text → text !! m_start m = Some lbracket.
Proof.
  rewrite finditer_tokens. intros Hm%tok_matches_lbracket.
  by rewrite flatten_tokenize, Nat.sub_0_r in Hm.
Qed.

(** C7, counterexample.  In the text ". [1]" the nearest terminator before
    the bracket is the one at position 0; the snippet nevertheless starts at
    position 0, not after that terminator and the blank that follows it. *)
Lemma snippet_start_position_0_not_examined :
  let text := chr ". [1]" in
  finditer text = [mkMatch 2 5 (chr "1")]
  ∧ _expand_citation_span_to_sentence text 2 5 = Some (0, 5)
  ∧ ¬ snippet_start_rel 0 text 2 0.
Proof.
  repeat split.
  intros [(p & c & _ & _ & _ & _ & Hp & _)|[Hno _]]; [lia|].
  by specialize (Hno 0 "."%char ltac:(lia) eq_refl).
Qed.

(** C7 (amended).  For every bracket match of a text the snippet span is
    found by scanning backward from the match start to the nearest
    terminator among the positions from 1 on (position 0 is never
    examined) and skipping the white space after it, or is the text start
    when there is none; and by scanning forward from the match end to the
    nearest terminator, inclusive, and the white space after it, or to the
    end of the text.  For "A. [1] B." the span of the bracket at 3..6 is
    3..9, which covers exactly "[1] B.". *)
Theorem snippet_span_of_match :
  (∀ (text : list ascii) (m : Match),
     m ∈ finditer text →
     ∃ ss se,
       _expand_citation_span_to_sentence text (m_start m) (m_end m)
       = Some (ss, se)
       ∧ snippet_start_rel 1 text (m_start m) ss
       ∧ snippet_end_rel text (m_end m) se)
  ∧ (let text := chr "A. [1] B." in
     finditer text = [mkMatch 3 6 (chr "1")]
     ∧ _expand_citation_span_to_sentence text 3 6 = Some (3, 9)
     ∧ substring text 3 9 = chr "[1] B.").
Proof.
  split; [|by repeat split].
  intros text m Hm.
  pose proof (finditer_bounds _ _ Hm) as [Hend Hle].
  pose proof (finditer_lbracket _ _ Hm) as Hlb.
  unfold _expand_citation_span_to_sentence.
  destruct (scan_back_is_Some text (m_start m)) as [ss Hss]; [lia|].
  rewrite Hss. cbn. exists ss, (scan_fwd text (m_end m)).
  split; [done|]. split; [|by apply scan_fwd_spec].
  apply scan_back_spec in Hss
    as [(p & c & Hp & Hc & He & Hno & ->)|[Hno ->]].
  - assert (p ≠ m_start m) as Hne.
    { intros ->. rewrite Hlb in Hc. by injection Hc as <-. }
    destruct (skip_space_spec text (S p)) as (H1 & _ & H3 & H4).
    left. exists p, c. repeat split; [lia | lia | done | done | | lia | |].
    + intros q c' Hq. apply Hno. lia.
    + intros q c' Hq. apply H3. lia.
    + done.
  - right. split; [|done]. intros q c' Hq. apply Hno. lia.
Qed.

Lemma snippet_span_of_match_witness :
  mkMatch 3 6 (chr "1") ∈ finditer (chr "A. [1] B.")
  ∧ ∃ ss se,
      _expand_citation_span_to_sentence (chr "A. [1] B.") 3 6 = Some (ss, se)
      ∧ snippet_start_rel 1 (chr "A. [1] B.") 3 ss
      ∧ snippet_end_rel (chr "A. [1] B.") 6 se.
Proof.
  assert (mkMatch 3 6 (chr "1") ∈ finditer (chr "A. [1] B.")) as H
    by (vm_compute; left).
  split; [exact H|].
  exact (proj1 snippet_span_of_match (chr "A. [1] B.") (mkMatch 3 6 (chr "1")) H).
Defined.

(** ** The two mappers *)

Lemma flat_source_list_tagged aggregated obj stype :
  (obj, stype) ∈ flat_source_list aggregated → stype = category_of obj.
Proof.
  unfold flat_source_list. rewrite !elem_of_app, !list_elem_of_fmap.
  intros [(? & [= -> ->] & _)|[(? & [= -> ->] & _)|[(? & [= -> ->] & _)
         |(? & [= -> ->] & _)]]]; done.
Qed.

Lemma fill_from_collector_category obj cit :
  fill_from_collector (category_of obj) obj cit = Some (source_citation obj cit).
Proof. by destruct obj. Qed.

Lemma map_citation_to_source_in_range flat cit obj :
  (0 ≤ index cit - 1 < Z.of_nat (length flat))%Z →
  flat !! Z.to_nat (index cit - 1) = Some (obj, category_of obj) →
  map_citation_to_source flat cit = Some (source_citation obj cit).
Proof.
  intros Hrange Hl. unfold map_citation_to_source.
  rewrite decide_False by lia. rewrite Hl. by destruct obj.
Qed.

Lemma map_citation_to_source_out_of_range flat cit :
  (index cit - 1 < 0 ∨ index cit - 1 >= Z.of_nat (length flat))%Z →
  map_citation_to_source flat cit = Some cit.
Proof. intros H. unfold map_citation_to_source. by rewrite decide_True. Qed.

Lemma map_citation_to_source_total aggregated cit :
  is_Some (map_citation_to_source (flat_source_list aggregated) cit).
Proof.
  destruct (decide (index cit - 1 < 0
                    ∨ index cit - 1
                      >= Z.of_nat (length (flat_source_list aggregated)))%Z)
    as [Hout|Hin].
  - rewrite map_citation_to_source_out_of_range by done. by eexists.
  - destruct (lookup_lt_is_Some_2 (flat_source_list aggregated)
                (Z.to_nat (index cit - 1))) as [[obj stype] Hl]; [lia|].
    pose proof (list_elem_of_lookup_2 _ _ _ Hl) as ->%flat_source_list_tagged.
    rewrite (map_citation_to_source_in_range _ _ obj) by (done || lia).
    by eexists.
Qed.

(** C6. A citation whose [index - 1] lies outside the flattened source
    sequence is returned unchanged by [map_citations_to_sources]: the call
    raises nothing, the output has one citation per input citation, and the
    citation is at its position in the output, with no field altered. *)
Theorem map_citations_to_sources_out_of_range
    (citations : list Citation) (aggregated : AggregateSearchResult)
    (i : nat) (cit : Citation) :
  citations !! i = Some cit →
  (index cit - 1 < 0
   ∨ index cit - 1 >= Z.of_nat (length (flat_source_list aggregated)))%Z →
  ∃ out,
    map_citations_to_sources citations aggregated = Some out
    ∧ length out = length citations
    ∧ out !! i = Some cit.
Proof.
  intros Hi Hout. unfold map_citations_to_sources.
  destruct (mapM_is_Some_2
              (map_citation_to_source (flat_source_list aggregated)) citations)
    as [out Hmap].
  { apply Forall_forall. intros c _. apply map_citation_to_source_total. }
  exists out. split; [done|]. split; [symmetry; by eapply length_mapM|].
  apply mapM_Some_1 in Hmap.
  destruct (Forall2_lookup_l _ _ _ _ _ Hmap Hi) as (c' & Hc' & Hstep).
  rewrite map_citation_to_source_out_of_range in Hstep by done.
  congruence.
Qed.

Lemma map_citations_to_sources_out_of_range_witness :
  ∃ out,
    map_citations_to_sources [Citation_new 3] (mkAggregate None None None None)
    = Some out
    ∧ length out = 1
    ∧ out !! 0 = Some (Citation_new 3).
Proof.
  apply (map_citations_to_sources_out_of_range
           [Citation_new 3] (mkAggregate None None None None) 0 (Citation_new 3)).
  - reflexivity.
  - right. simpl. lia.
Defined.

Lemma fill_from_collector_total stype obj cit k :
  well_tagged (stype, obj, k) → is_Some (fill_from_collector stype obj cit).
Proof.
  unfold well_tagged; simpl. intros Htag.
  destruct (decide (stype ∈ ["chunk"; "graph"; "web"; "contextDoc"]%string))
    as [Hin|Hnot].
  - rewrite (Htag Hin), fill_from_collector_category. by eexists.
  - unfold fill_from_collector.
    destruct (String.eqb_spec stype "chunk") as [->|_];
      [exfalso; apply Hnot; set_solver|].
    destruct (String.eqb_spec stype "graph") as [->|_];
      [exfalso; apply Hnot; set_solver|].
    destruct (String.eqb_spec stype "web") as [->|_];
      [exfalso; apply Hnot; set_solver|].
    destruct (String.eqb_spec stype "contextDoc") as [->|_];
      [exfalso; apply Hnot; set_solver|].
    by eexists.
Qed.

Lemma fold_aggregator_map_elem (ledger : list LedgerEntry)
    (m0 : gmap Z (string * SourceObj)) k stype obj :
  fold_left (λ aggregator_map '(stype, obj, agg_idx),
               <[agg_idx := (stype, obj)]> aggregator_map) ledger m0 !! k
  = Some (stype, obj) →
  m0 !! k = Some (stype, obj) ∨ (stype, obj, k) ∈ ledger.
Proof.
  revert m0. induction ledger as [|[[st o] a] rest IH]; intros m0; simpl.
  - by left.
  - intros [Hl|Hin]%IH; [|right; by right].
    destruct (decide (a = k)) as [->|Hne].
    + rewrite lookup_insert_eq in Hl. injection Hl as -> ->. right. by left.
    + rewrite lookup_insert_ne in Hl by done. by left.
Qed.

Lemma map_citation_to_collector_total ledger cit :
  Forall well_tagged ledger →
  is_Some (map_citation_to_collector (build_aggregator_map ledger) cit).
Proof.
  intros Hwt. unfold map_citation_to_collector.
  destruct (rawIndex cit ≫= (build_aggregator_map ledger !!.))
    as [[stype obj]|] eqn:Hl; [|by eexists].
  destruct (rawIndex cit) as [r|]; [|done]. simpl in Hl.
  apply fold_aggregator_map_elem in Hl as [Hl|Hin]; [by rewrite lookup_empty in Hl|].
  rewrite Forall_forall in Hwt.
  by apply (fill_from_collector_total _ _ _ r), Hwt.
Qed.

Lemma set_sourceType_restore v cit :
  set_sourceType (sourceType cit) (set_sourceType v cit) = cit.
Proof. by destruct cit. Qed.

(** C5, counterexample.  A citation that arrives with a non-empty metadata
    map and whose raw reference is absent from the ledger keeps that
    metadata: the result is marked "unknown" but its metadata is not
    empty. *)
Lemma unknown_citation_keeps_metadata :
  let cit :=
    mkCitation 1 (Some 7%Z) None None None None None None None None None None
      None (<["note"%string := PStr "kept"]> ∅) in
  ∃ c',
    map_citations_to_collector [cit] (mkCollector []) = Some [c']
    ∧ sourceType c' = Some "unknown"%string
    ∧ metadata c' ≠ ∅.
Proof.
  eexists. split; [reflexivity|]. split; [reflexivity|].
  apply insert_non_empty.
Qed.

(** C5 (amended).  A citation whose [rawIndex] has no entry in the
    aggregator-index map of the collector raises nothing and is never
    dropped: the loop body turns it into a copy with [sourceType] set to
    "unknown" and every other field, the metadata included, as in the input
    citation (so the metadata is empty when the input's is); whenever
    [map_citations_to_collector] returns, its output has one citation per
    input citation and holds that copy at the citation's position; and it
    does return when the type tags of the ledger agree with its objects. *)
Theorem map_citations_to_collector_unknown
    (citations : list Citation) (collector : SearchResultsCollector)
    (i : nat) (cit : Citation) :
  citations !! i = Some cit →
  (∀ r, rawIndex cit = Some r →
        build_aggregator_map (get_all_results collector) !! r = None) →
  ∃ c',
    map_citation_to_collector
      (build_aggregator_map (get_all_results collector)) cit = Some c'
    ∧ sourceType c' = Some "unknown"%string
    ∧ metadata c' = metadata cit
    ∧ set_sourceType (sourceType cit) c' = cit
    ∧ (metadata cit = ∅ → metadata c' = ∅)
    ∧ (∀ out, map_citations_to_collector citations collector = Some out →
              length out = length citations ∧ out !! i = Some c')
    ∧ (Forall well_tagged (get_all_results collector) →
       is_Some (map_citations_to_collector citations collector)).
Proof.
  intros Hi Hnone.
  exists (set_sourceType (Some "unknown"%string) cit).
  assert (map_citation_to_collector
            (build_aggregator_map (get_all_results collector)) cit
          = Some (set_sourceType (Some "unknown"%string) cit)) as Hstep.
  { unfold map_citation_to_collector.
    destruct (rawIndex cit) as [r|]; [|done]. cbn. by rewrite Hnone. }
  split; [done|]. split; [by destruct cit|]. split; [by destruct cit|].
  split; [apply set_sourceType_restore|]. split; [by destruct cit|].
  split.
  - unfold map_citations_to_collector. intros out Hmap.
    split; [symmetry; by eapply length_mapM|].
    apply mapM_Some_1 in Hmap.
    destruct (Forall2_lookup_l _ _ _ _ _ Hmap Hi) as (c' & Hc' & Hstep').
    congruence.
  - intros Hwt. apply mapM_is_Some_2, Forall_forall.
    intros c _. by apply map_citation_to_collector_total.
Qed.

Lemma map_citations_to_collector_unknown_witness :
  let cit :=
    mkCitation 2 (Some 5%Z) None None None None None None None None None None
      None ∅ in
  let collector :=
    mkCollector [("web"%string, WebObj (mkWeb "l" "t" "s" 1), 1%Z)] in
  ∃ c',
    map_citation_to_collector
      (build_aggregator_map (get_all_results collector)) cit = Some c'
    ∧ sourceType c' = Some "unknown"%string
    ∧ metadata c' = metadata cit
    ∧ set_sourceType (sourceType cit) c' = cit
    ∧ (metadata cit = ∅ → metadata c' = ∅)
    ∧ (∀ out, map_citations_to_collector [cit] collector = Some out →
              length out = 1 ∧ out !! 0 = Some c')
    ∧ (Forall well_tagged (get_all_results collector) →
       is_Some (map_citations_to_collector [cit] collector)).
Proof.
  intros cit collector.
  apply (map_citations_to_collector_unknown [cit] collector 0 cit).
  - reflexivity.
  - intros r [= <-]. reflexivity.
Defined.

(** ** Agreement of the two mappers *)

Lemma ledger_from_cons n x flat :
  ledger_from n (x :: flat)
  = (x.2, x.1, Z.of_nat (S n)) :: ledger_from (S n) flat.
Proof.
  unfold ledger_from. rewrite imap_cons. f_equal.
  - destruct x. by rewrite Nat.add_0_r.
  - apply imap_ext. intros i [obj stype] _. simpl.
    by replace (n + S i) with (S (n + i)) by lia.
Qed.

Lemma fold_ledger_from_outside flat n (m0 : gmap Z (string * SourceObj)) k :
  (k ≤ Z.of_nat n ∨ Z.of_nat (n + length flat) < k)%Z →
  fold_left (λ aggregator_map '(stype, obj, agg_idx),
               <[agg_idx := (stype, obj)]> aggregator_map)
    (ledger_from n flat) m0 !! k
  = m0 !! k.
Proof.
  revert n m0. induction flat as [|x rest IH]; intros n m0 Hk; [done|].
  rewrite ledger_from_cons. cbn [fold_left].
  rewrite IH by (simpl in Hk; lia).
  apply lookup_insert_ne. simpl in Hk. lia.
Qed.

Lemma fold_ledger_from_inside flat n (m0 : gmap Z (string * SourceObj)) k :
  (Z.of_nat n < k ≤ Z.of_nat (n + length flat))%Z →
  fold_left (λ aggregator_map '(stype, obj, agg_idx),
               <[agg_idx := (stype, obj)]> aggregator_map)
    (ledger_from n flat) m0 !! k
  = (λ p, (p.2, p.1)) <$> flat !! (Z.to_nat k - S n).
Proof.
  revert n m0. induction flat as [|x rest IH]; intros n m0 Hk;
    [simpl in Hk; lia|].
  rewrite ledger_from_cons. cbn [fold_left].
  destruct (decide (k = Z.of_nat (S n))) as [->|Hne].
  - rewrite fold_ledger_from_outside by lia.
    rewrite lookup_insert_eq.
    by replace (Z.to_nat (Z.of_nat (S n)) - S n) with 0 by lia.
  - rewrite IH by (simpl in Hk; lia).
    by replace (Z.to_nat k - S n) with (S (Z.to_nat k - S (S n))) by lia.
Qed.

Lemma ledger_of_from aggregated :
  ledger_of aggregated = ledger_from 0 (flat_source_list aggregated).
Proof. reflexivity. Qed.

Lemma mapM_ext_in {A B} (f g : A → option B) l :
  (∀ x, x ∈ l → f x = g x) → mapM f l = mapM g l.
Proof.
  induction l as [|x l IH]; intros Hfg; [done|].
  cbn. rewrite Hfg by left. rewrite IH; [done|].
  intros y Hy. apply Hfg. by right.
Qed.

(** C2, counterexample.  With no sources at all, the reference 1 is out of
    range for both mappers; the positional mapper returns the citation as it
    is, the aggregator mapper marks it "unknown". *)
Lemma mappers_differ_out_of_range :
  let cit :=
    mkCitation 1 (Some 1%Z) None None None None None None None None None None
      None ∅ in
  let aggregated := mkAggregate None None None None in
  let collector := mkCollector (ledger_of aggregated) in
  map_citations_to_sources [cit] aggregated = Some [cit]
  ∧ map_citations_to_collector [cit] collector
    = Some [set_sourceType (Some "unknown"%string) cit]
  ∧ map_citations_to_sources [cit] aggregated
    ≠ map_citations_to_collector [cit] collector.
Proof. repeat split. intros [=]. Qed.

(** C2 (amended).  For a collector whose ledger holds the source objects of
    the aggregate with aggregator indices 1..N in category order, and a
    citation list in which every citation has [rawIndex] equal to [index]
    and [index] within 1..N, both mappers return the same citation list. *)
Theorem mappers_agree_in_range
    (citations : list Citation) (aggregated : AggregateSearchResult)
    (collector : SearchResultsCollector) :
  get_all_results collector = ledger_of aggregated →
  Forall (λ c, rawIndex c = Some (index c)
               ∧ (1 ≤ index c
                  ≤ Z.of_nat (length (flat_source_list aggregated)))%Z)
    citations →
  ∃ out,
    map_citations_to_sources citations aggregated = Some out
    ∧ map_citations_to_collector citations collector = Some out
    ∧ length out = length citations.
Proof.
  intros Hledger Hcits.
  unfold map_citations_to_sources, map_citations_to_collector.
  rewrite Hledger.
  destruct (mapM_is_Some_2
              (map_citation_to_source (flat_source_list aggregated)) citations)
    as [out Hmap].
  { apply Forall_forall. intros c _. apply map_citation_to_source_total. }
  exists out. split; [done|]. split; [|symmetry; by eapply length_mapM].
  rewrite <- Hmap. apply mapM_ext_in. intros c Hc.
  rewrite Forall_forall in Hcits. destruct (Hcits c Hc) as [Hraw Hrange].
  destruct (lookup_lt_is_Some_2 (flat_source_list aggregated)
              (Z.to_nat (index c - 1))) as [[obj stype] Hl]; [lia|].
  pose proof (list_elem_of_lookup_2 _ _ _ Hl) as ->%flat_source_list_tagged.
  rewrite (map_citation_to_source_in_range _ _ obj) by (done || lia).
  unfold map_citation_to_collector, build_aggregator_map.
  rewrite Hraw. cbn [mbind option_bind].
  rewrite ledger_of_from, fold_ledger_from_inside by (simpl; lia).
  replace (Z.to_nat (index c) - 1) with (Z.to_nat (index c - 1)) by lia.
  rewrite Hl. cbn. apply fill_from_collector_category.
Qed.

Lemma mappers_agree_in_range_witness :
  let chunk :=
    mkChunk (mkUUID "c1") (mkUUID "d1") None [] None "text" ∅ in
  let web := mkWeb "link" "title" "snippet" 1 in
  let aggregated := mkAggregate (Some [chunk]) None (Some [web]) None in
  let cit i :=
    mkCitation i (Some i) None None None None None None None None None None
      None ∅ in
  ∃ out,
    map_citations_to_sources [cit 2%Z; cit 1%Z] aggregated = Some out
    ∧ map_citations_to_collector [cit 2%Z; cit 1%Z]
        (mkCollector (ledger_of aggregated)) = Some out
    ∧ length out = 2.
Proof.
  intros chunk web aggregated cit.
  apply (mappers_agree_in_range [cit 2%Z; cit 1%Z] aggregated
           (mkCollector (ledger_of aggregated))).
  - reflexivity.
  - repeat constructor; simpl; lia.
Defined.

(** ** The aggregator-based pipeline: offsets *)

(** C4, at the failing input.  For the raw text "[10][11]" the pipeline
    returns the text "[1][2]" and, for the second bracket, a citation with
    index 2 whose offsets 4..8 are those of "[11]" in the raw text; in the
    returned text that range holds "2]", not "[2]". *)
Lemma finalize_with_collector_keeps_raw_offsets :
  ∃ c1 c2,
    finalize_citations_with_collector (chr "[10][11]") (mkCollector [])
    = Some (chr "[1][2]", [c1; c2])
    ∧ index c2 = 2%Z
    ∧ startIndex c2 = Some 4%Z
    ∧ endIndex c2 = Some 8%Z
    ∧ substring (chr "[10][11]") 4 8 = chr "[11]"
    ∧ substring (chr "[1][2]") 4 8 = chr "2]"
    ∧ substring (chr "[1][2]") 4 8 ≠ bracketed (index c2).
Proof.
  eexists _, _. split; [vm_compute; reflexivity|].
  repeat split. vm_compute. intros [=].
Qed.

(** ** The aggregator-based pipeline on every input *)

Lemma insert_unique_elem x l y : y ∈ insert_unique x l ↔ y = x ∨ y ∈ l.
Proof.
  induction l as [|z l IH]; simpl.
  - rewrite list_elem_of_singleton, elem_of_nil. tauto.
  - destruct (x <? z)%Z; [by rewrite elem_of_cons|].
    destruct (x =? z)%Z eqn:Heq.
    + apply Z.eqb_eq in Heq as ->. rewrite elem_of_cons. tauto.
    + rewrite !elem_of_cons, IH. tauto.
Qed.

Lemma sorted_set_elem l y : y ∈ sorted_set l ↔ y ∈ l.
Proof.
  induction l as [|x l IH]; [done|].
  unfold sorted_set in *. cbn [foldr].
  by rewrite insert_unique_elem, IH, elem_of_cons.
Qed.

Lemma enumerate_map_is_Some i l (m : gmap Z Z) k :
  k ∈ l ∨ is_Some (m !! k) → is_Some (enumerate_map i l m !! k).
Proof.
  revert i m. induction l as [|x l IH]; intros i m; simpl.
  - by intros [?%elem_of_nil|?].
  - intros Hk. apply IH. destruct (decide (x = k)) as [->|Hne].
    + right. rewrite lookup_insert_eq. by eexists.
    + rewrite lookup_insert_ne by done.
      destruct Hk as [[->|?]%elem_of_cons|?]; [done | by left | by right].
Qed.

Lemma sub_at_is_Some repl skip l :
  (∀ ds, Cite ds ∈ tokenize_at skip l → is_Some (repl ds)) →
  is_Some (sub_at repl skip l).
Proof.
  revert skip. induction l as [|c tl IH]; intros [|k] Hrepl;
    try (by eexists).
  - cbn [sub_at tokenize_at] in *.
    destruct (match_here (c :: tl)) as [ds|].
    + destruct (Hrepl ds ltac:(left)) as [r ->]. cbn.
      destruct (IH (S (length ds))) as [rest ->]; [|by eexists].
      intros ds' Hds'. apply Hrepl. by right.
    + destruct (IH 0) as [rest ->]; [|by eexists].
      intros ds' Hds'. apply Hrepl. by right.
  - cbn [sub_at tokenize_at] in *. by apply IH.
Qed.

Lemma cite_in_values toks ds :
  Cite ds ∈ toks → Z.of_N (int_of_digits ds) ∈ cite_values toks.
Proof.
  induction toks as [|[c|ds'] rest IH]; simpl.
  - by intros ?%elem_of_nil.
  - intros [[=]|?]%elem_of_cons. by apply IH.
  - intros [[= ->]|?]%elem_of_cons; [left | right; by apply IH].
Qed.

Lemma occurrence_citation_offsets all_items old_ref new_ref s_i e_i :
  let c := occurrence_citation all_items old_ref new_ref s_i e_i in
  index c = new_ref ∧ rawIndex c = Some old_ref
  ∧ startIndex c = Some (Z.of_nat s_i) ∧ endIndex c = Some (Z.of_nat e_i).
Proof.
  unfold occurrence_citation.
  by destruct (find_aggregator_item all_items old_ref) as [[st obj]|].
Qed.

(** The aggregator-based pipeline always returns, with one citation per
    bracket of the raw text, in order, carrying the raw reference and the
    offsets of the bracket in the raw text. *)
Lemma finalize_with_collector_offsets_of_raw_text raw_text collector :
  ∃ relabeled_text final_citations,
    finalize_citations_with_collector raw_text collector
    = Some (relabeled_text, final_citations)
    ∧ (λ c, (rawIndex c, startIndex c, endIndex c)) <$> final_citations
      = (λ m, (Some (Z.of_N (int_of_digits (m_group1 m))),
               Some (Z.of_nat (m_start m)), Some (Z.of_nat (m_end m))))
          <$> finditer raw_text.
Proof.
  unfold finalize_citations_with_collector.
  destruct raw_text as [|c0 tl]; [by eexists _, _|].
  set (raw_text := c0 :: tl).
  destruct (finditer raw_text) as [|m ms] eqn:Hms; [by eexists _, _|].
  rewrite <- Hms.
  rewrite <- !list_fmap_compose.
  set (old_to_new := enumerate_map 1%Z (sorted_set _) ∅).
  assert (∀ r, r ∈ cite_values (tokenize raw_text) →
               is_Some (old_to_new !! r)) as Hdom.
  { intros r Hr. apply enumerate_map_is_Some. left.
    apply sorted_set_elem. by rewrite <- raw_finditer in Hr. }
  set (f := λ occ : Z * nat * nat,
              old_to_new !! occ.1.1
              ≫= λ new_ref,
                   Some (occurrence_citation (get_all_results collector)
                           occ.1.1 new_ref occ.1.2 occ.2)).
  set (g := λ occ : Z * nat * nat,
              occurrence_citation (get_all_results collector)
                occ.1.1 (default 0%Z (old_to_new !! occ.1.1)) occ.1.2 occ.2).
  rewrite (mapM_total f g).
  2:{ intros occ [m' [-> Hm']]%list_elem_of_fmap. unfold f, g. simpl.
      destruct (Hdom (Z.of_N (int_of_digits (m_group1 m')))) as [v ->]; [|done].
      rewrite <- raw_finditer. apply list_elem_of_fmap. eauto. }
  cbn [mbind option_bind].
  destruct (sub_at_is_Some
              (λ old_str,
                 old_to_new !! Z.of_N (int_of_digits old_str)
                 ≫= λ new_int, Some (bracketed new_int)) 0 raw_text)
    as [t Ht].
  { intros ds Hds%cite_in_values.
    destruct (Hdom _ Hds) as [v ->]. by eexists. }
  rewrite Ht. cbn. eexists _, _. split; [done|].
  rewrite <- !list_fmap_compose. apply list_fmap_ext.
  intros i m' _. unfold g. simpl.
  by destruct (occurrence_citation_offsets (get_all_results collector)
                 (Z.of_N (int_of_digits (m_group1 m')))
                 (default 0%Z (old_to_new !! Z.of_N (int_of_digits (m_group1 m'))))
                 (m_start m') (m_end m')) as (_ & -> & -> & ->).
Qed.

(** ** Reordering the collector *)

Lemma fold_max_index_ge rest m0 :
  (m0 ≤ fold_left (λ m c', Z.max m (index c')) rest m0)%Z
  ∧ ∀ c, c ∈ rest →
      (index c ≤ fold_left (λ m c', Z.max m (index c')) rest m0)%Z.
Proof.
  revert m0. induction rest as [|c' rest IH]; intros m0; simpl.
  - split; [lia | by intros ? ?%elem_of_nil].
  - destruct (IH (Z.max m0 (index c'))) as [IH1 IH2]. split; [lia|].
    intros c [->|Hc]%elem_of_cons; [lia | by apply IH2].
Qed.

Lemma max_index_of_ge cits c :
  c ∈ cits → (index c ≤ max_index_of cits)%Z.
Proof.
  destruct cits as [|c0 rest]; [by intros ?%elem_of_nil|].
  destruct (fold_max_index_ge rest (index c0)) as [H1 H2].
  intros [->|Hc]%elem_of_cons; [done | by apply H2].
Qed.

Lemma py_index_in_range n i :
  (0 ≤ i < Z.of_nat n)%Z → py_index n i = Some (Z.to_nat i).
Proof. intros H. unfold py_index. by rewrite decide_True. Qed.

Lemma reorder_loop_spec old_list new_list rest :
  (∀ c, c ∈ rest →
     ∃ r, rawIndex c = Some r ∧ (1 ≤ r ≤ Z.of_nat (length old_list))%Z
          ∧ (1 ≤ index c ≤ Z.of_nat (length new_list))%Z) →
  ∃ nl',
    reorder_loop old_list new_list rest = Some nl'
    ∧ length nl' = length new_list
    ∧ (∀ k e, new_list !! k = Some (Some e) → nl' !! k = Some (Some e))
    ∧ (∀ k e, nl' !! k = Some (Some e) →
         new_list !! k = Some (Some e)
         ∨ ∃ c r, c ∈ rest ∧ index c = Z.of_nat (S k) ∧ rawIndex c = Some r
                  ∧ old_list !! Z.to_nat (r - 1) = Some e)
    ∧ (∀ c, c ∈ rest → ∃ e, nl' !! Z.to_nat (index c - 1) = Some (Some e)).
Proof.
  revert new_list. induction rest as [|c rest IH]; intros nl Hvalid.
  { exists nl. split_and!; [done | done | done | by left |].
    by intros ? ?%elem_of_nil. }
  destruct (Hvalid c ltac:(left)) as (r & Hr & Hrange & Hidx).
  set (k := Z.to_nat (index c - 1)).
  destruct (lookup_lt_is_Some_2 nl k) as [slot Hslot]; [lia|].
  destruct (lookup_lt_is_Some_2 old_list (Z.to_nat (r - 1))) as [item Hitem];
    [lia|].
  assert (∃ nl1, reorder_step old_list nl c = Some nl1
                 ∧ length nl1 = length nl
                 ∧ (∀ k' e, nl !! k' = Some (Some e) → nl1 !! k' = Some (Some e))
                 ∧ (∀ k' e, nl1 !! k' = Some (Some e) →
                      nl !! k' = Some (Some e) ∨ (k' = k ∧ e = item))
                 ∧ ∃ e, nl1 !! k = Some (Some e)) as (nl1 & Hstep & Hlen1 & Hkeep1 & Hfrom1 & Hset1).
  { unfold reorder_step. rewrite Hr.
    rewrite decide_False by lia. rewrite decide_False by lia.
    rewrite py_index_in_range by lia. fold k. cbn. rewrite Hslot. cbn.
    destruct slot as [e0|].
    - exists nl. split_and!; [done | done | done | by left | by exists e0].
    - rewrite Hitem. cbn. exists (<[k := Some item]> nl).
      split_and!; [done | by rewrite length_insert | | |].
      + intros k' e Hk'. rewrite list_lookup_insert_ne; [done|].
        intros <-. congruence.
      + intros k' e. destruct (decide (k = k')) as [<-|Hne].
        * rewrite list_lookup_insert_eq by lia. intros [= <-]. by right.
        * rewrite list_lookup_insert_ne by done. by left.
      + exists item. apply list_lookup_insert_eq. lia. }
  destruct (IH nl1) as (nl' & Hloop & Hlen & Hkeep & Hfrom & Hset).
  { intros c' Hc'. rewrite Hlen1. apply Hvalid. by right. }
  exists nl'. cbn [reorder_loop]. rewrite Hstep. cbn.
  split_and!; [done | congruence | by auto | |].
  - intros k' e [[Hk'|[-> ->]]%Hfrom1|(c' & r' & Hc' & ?)]%Hfrom.
    + by left.
    + right. exists c, r. split_and!; [by left | unfold k; lia | done | done].
    + right. exists c', r'. split; [by right | done].
  - intros c' [->|Hc']%elem_of_cons; [|by apply Hset].
    destruct Hset1 as [e He]. exists e. by apply Hkeep.
Qed.

Lemma omap_id_filled {A} (l : list (option A)) :
  (∀ k, k < length l → ∃ e, l !! k = Some (Some e)) →
  Some <$> omap id l = l.
Proof.
  induction l as [|x l IH]; intros Hl; [done|].
  destruct (Hl 0 ltac:(simpl; lia)) as [e [= ->]]. cbn. f_equal.
  apply IH. intros k Hk. apply (Hl (S k)). simpl. lia.
Qed.

(** C8, counterexample.  For the raw text "[0][1]" and a ledger of one
    item, the pipeline returns brackets 1 (raw 0, no ledger item) and 2
    (raw 1, the only ledger item).  Reordering the collector by these
    citations leaves a ledger of length 1: position 1 does not hold the item
    of bracket 2, which sits at position 0. *)
Lemma reorder_compacts_unfilled_positions :
  let item : LedgerEntry :=
    ("chunk"%string,
     ChunkObj (mkChunk (mkUUID "c") (mkUUID "d") None [] None "a" ∅), 1%Z) in
  let collector := mkCollector [item] in
  ∃ c1 c2 collector',
    finalize_citations_with_collector (chr "[0][1]") collector
    = Some (chr "[1][2]", [c1; c2])
    ∧ reorder_collector_to_match_final_brackets collector [c1; c2]
      = Some collector'
    ∧ max_index_of [c1; c2] = 2%Z
    ∧ index c2 = 2%Z ∧ rawIndex c2 = Some 1%Z
    ∧ get_all_results collector !! 0 = Some item
    ∧ get_all_results collector' !! 1 = None
    ∧ get_all_results collector' !! 0 = Some item.
Proof.
  eexists _, _, _. split; [vm_compute; reflexivity|].
  split; [vm_compute; reflexivity|]. by repeat split.
Qed.

(** C8 (amended).  [reorder_collector_to_match_final_brackets], a function
    of its own that [finalize_citations_with_collector] does not call,
    replaces the ordering of the collector.  When every final citation has
    an index from 1 on and a [rawIndex] within 1..len(ledger), every number
    from 1 to the maximum index is the index of some citation, and
    citations with the same index have the same [rawIndex], the new ledger
    has one position per bracket number and position [index - 1] holds the
    old ledger entry at position [rawIndex - 1], for every citation. *)
Theorem reorder_places_bracket_items
    (collector : SearchResultsCollector) (final_citations : list Citation) :
  (∀ c, c ∈ final_citations →
     (1 ≤ index c)%Z
     ∧ ∃ r, rawIndex c = Some r
            ∧ (1 ≤ r ≤ Z.of_nat (length (get_all_results collector)))%Z) →
  (∀ k, (1 ≤ k ≤ max_index_of final_citations)%Z →
     ∃ c, c ∈ final_citations ∧ index c = k) →
  (∀ c c', c ∈ final_citations → c' ∈ final_citations →
     index c = index c' → rawIndex c = rawIndex c') →
  ∃ collector',
    reorder_collector_to_match_final_brackets collector final_citations
    = Some collector'
    ∧ length (get_all_results collector')
      = Z.to_nat (max_index_of final_citations)
    ∧ ∀ c r, c ∈ final_citations → rawIndex c = Some r →
        get_all_results collector' !! Z.to_nat (index c - 1)
        = get_all_results collector !! Z.to_nat (r - 1).
Proof.
  intros Hvalid Hall Hsame.
  unfold reorder_collector_to_match_final_brackets.
  set (old := get_all_results collector) in *.
  set (M := max_index_of final_citations) in *.
  destruct (reorder_loop_spec old (replicate (Z.to_nat M) None) final_citations)
    as (nl' & Hloop & Hlen & _ & Hfrom & Hset).
  { intros c Hc. destruct (Hvalid c Hc) as (Hge & r & Hr & Hrange).
    exists r. split_and!; [done | lia | lia | lia |].
    rewrite length_replicate.
    pose proof (max_index_of_ge _ _ Hc). fold M in H. lia. }
  rewrite length_replicate in Hlen.
  rewrite Hloop. cbn. eexists. split; [done|].
  assert (Some <$> omap id nl' = nl') as Hfilled.
  { apply omap_id_filled. intros k Hk.
    destruct (Hall (Z.of_nat (S k)) ltac:(lia)) as (c & Hc & Hidx).
    destruct (Hset c Hc) as [e He]. exists e.
    by replace (Z.to_nat (index c - 1)) with k in He by lia. }
  unfold get_all_results. cbn [_results_in_order].
  split.
  - rewrite <- Hlen. rewrite <- (length_fmap Some (omap id nl')).
    by rewrite Hfilled.
  - intros c r Hc Hr. destruct (Hset c Hc) as [e He].
    destruct (Hfrom _ _ He) as [Hinit|(c' & r' & Hc' & Hidx & Hr' & Hold)].
    { apply lookup_replicate in Hinit as [? _]. done. }
    assert (rawIndex c' = rawIndex c) as Heq.
    { apply Hsame; [done | done |].
      destruct (Hvalid c Hc) as [? _]. lia. }
    rewrite Hr, Hr' in Heq. injection Heq as ->.
    rewrite Hold. rewrite <- Hfilled in He.
    rewrite list_lookup_fmap in He.
    destruct (omap id nl' !! Z.to_nat (index c - 1)) as [e'|]; [|done].
    by injection He as ->.
Qed.

Lemma reorder_places_bracket_items_witness :
  let a : LedgerEntry := ("web"%string, WebObj (mkWeb "la" "ta" "sa" 1), 1%Z) in
  let b : LedgerEntry := ("web"%string, WebObj (mkWeb "lb" "tb" "sb" 2), 2%Z) in
  let cit i r :=
    mkCitation i (Some r) None None None None None None None None None None
      None ∅ in
  ∃ collector',
    reorder_collector_to_match_final_brackets (mkCollector [a; b])
      [cit 1%Z 2%Z; cit 2%Z 1%Z; cit 1%Z 2%Z]
    = Some collector'
    ∧ length (get_all_results collector') = 2
    ∧ ∀ c r, c ∈ [cit 1%Z 2%Z; cit 2%Z 1%Z; cit 1%Z 2%Z] →
        rawIndex c = Some r →
        get_all_results collector' !! Z.to_nat (index c - 1)
        = get_all_results (mkCollector [a; b]) !! Z.to_nat (r - 1).
Proof.
  intros a b cit.
  apply (reorder_places_bracket_items (mkCollector [a; b])
           [cit 1%Z 2%Z; cit 2%Z 1%Z; cit 1%Z 2%Z]).
  - intros c Hc. apply list_elem_of_In in Hc. simpl in Hc.
    destruct Hc as [<-|[<-|[<-|[]]]]; (split; [simpl; lia|]);
      eexists; (split; [reflexivity | simpl; lia]).
  - change (max_index_of _) with 2%Z. intros k Hk.
    destruct (decide (k = 1%Z)) as [->|Hne].
    + exists (cit 1%Z 2%Z). split; [left | reflexivity].
    + exists (cit 2%Z 1%Z). split; [right; left | simpl; lia].
  - intros c c' Hc Hc'. apply list_elem_of_In in Hc, Hc'. simpl in Hc, Hc'.
    destruct Hc as [<-|[<-|[<-|[]]]]; destruct Hc' as [<-|[<-|[<-|[]]]];
      simpl; intros; (reflexivity || lia).
Defined.

(** ** The stream renderer *)

Lemma append_assoc (s1 s2 s3 : string) :
  (s1 +:+ s2) +:+ s3 = s1 +:+ (s2 +:+ s3).
Proof.
  induction s1 as [|c s1 IH]; [done|].
  change (String c ((s1 +:+ s2) +:+ s3) = String c (s1 +:+ s2 +:+ s3)).
  by rewrite IH.
Qed.

Section StreamProperties.

Variable chunk_as_dict : ChunkSearchResult → PyVal.
Variable graph_dict : GraphSearchResult → PyVal.
Variable web_to_dict : WebSearchResult → PyVal.
Variable context_to_dict : ContextDocumentResult → PyVal.
Variable json_dumps : list PyVal → string.

Local Abbreviation render :=
  (format_search_results_for_stream chunk_as_dict graph_dict web_to_dict
     context_to_dict json_dumps).

(** C9. The stream renderer returns the concatenation, in the order
    chunk, graph, web, contextDoc, of one segment per category: nothing
    for a category without items, and otherwise the start tag, the JSON
    array of the dictionaries of the items, and the matching end tag, the
    tags being chunk_search, graph_search, web_search and content.  For a
    result with two chunk results and nothing else the output is
    "<chunk_search>", the JSON array of the two chunk dictionaries and
    "</chunk_search>". *)
Theorem stream_renderer_emits_segments (results : AggregateSearchResult) :
  render results
  = stream_renderer_spec chunk_as_dict graph_dict web_to_dict
      context_to_dict json_dumps results
  ∧ (∀ tag, stream_segment json_dumps tag [] = ""%string)
  ∧ (∀ tag d ds,
       stream_segment json_dumps tag (d :: ds)
       = "<" +:+ tag +:+ ">" +:+ json_dumps (d :: ds) +:+ "</" +:+ tag +:+ ">")
  ∧ (∀ c1 c2,
       render (mkAggregate (Some [c1; c2]) None None None)
       = "<chunk_search>"
         +:+ json_dumps [chunk_as_dict c1; chunk_as_dict c2]
         +:+ "</chunk_search>")
  ∧ (∀ c1 c2,
       render (mkAggregate (Some [c1; c2]) (Some []) (Some []) (Some []))
       = "<chunk_search>"
         +:+ json_dumps [chunk_as_dict c1; chunk_as_dict c2]
         +:+ "</chunk_search>").
Proof.
  split_and!; [|done|done| |].
  - unfold format_search_results_for_stream, stream_renderer_spec,
      stream_segment.
    destruct results as [[[|c cs]|] [[|g gs]|] [[|w ws]|] [[|d ds]|]];
      cbn; rewrite ?append_assoc; reflexivity.
  - intros c1 c2. unfold format_search_results_for_stream. cbn.
    rewrite ?append_assoc. reflexivity.
  - intros c1 c2. unfold format_search_results_for_stream. cbn.
    rewrite ?append_assoc. reflexivity.
Qed.

End StreamProperties.

(** ** Worked examples *)

(** The renumbering example of the spec: raw references 2, 2, 5 become
    1, 1, 2. *)
Example renumber_paris :
  let text := chr "Paris is in France[2]. Also see[2] and[5]." in
  ∃ cits out,
    extract_citations text = Some cits
    ∧ index <$> cits = [2; 2; 5]%Z
    ∧ reassign_citations_in_order text cits
      = Some (chr "Paris is in France[1]. Also see[1] and[2].", out)
    ∧ (λ c, (index c, rawIndex c, startIndex c, endIndex c)) <$> out
      = [(1, Some 2, Some 18, Some 21); (1, Some 2, Some 31, Some 34);
         (2, Some 5, Some 38, Some 41)]%Z.
Proof.
  eexists _, _. split; [vm_compute; reflexivity|].
  split; [reflexivity|]. split; [vm_compute; reflexivity|]. reflexivity.
Qed.

(** A change of digit length moves the later brackets: the offsets of the
    relabeled citations are those in the new text. *)
Example renumber_shifts_offsets :
  let text := chr "[10][11]" in
  ∃ cits out,
    extract_citations text = Some cits
    ∧ reassign_citations_in_order text cits = Some (chr "[1][2]", out)
    ∧ (λ c, (index c, rawIndex c, startIndex c, endIndex c)) <$> out
      = [(1, Some 10, Some 0, Some 3); (2, Some 11, Some 3, Some 6)]%Z.
Proof.
  eexists _, _. split; [vm_compute; reflexivity|].
  split; [vm_compute; reflexivity|]. reflexivity.
Qed.

(** * Further properties *)

(** ** The scanner *)

Lemma tok_matches_substring pre toks m :
  scanned toks → m ∈ tok_matches (length pre) toks →
  substring (pre ++ flatten toks) (m_start m) (m_end m)
  = lbracket :: m_group1 m ++ [rbracket]
  ∧ numeral (m_group1 m).
Proof.
  revert pre. induction toks as [|[c|ds] rest IH]; intros pre; cbn [tok_matches scanned].
  - by intros _ ?%elem_of_nil.
  - intros [_ Hs] Hm. rewrite flatten_cons. cbn [tok_text].
    rewrite (app_assoc pre [c]). apply IH; [done|].
    by rewrite length_app, Nat.add_1_r.
  - intros [Hn Hs] [->|Hm]%elem_of_cons.
    + split; [|done]. unfold substring. cbn [m_start m_end m_group1].
      rewrite drop_app_length, flatten_cons.
      replace (length pre + (length ds + 2) - length pre)
        with (length (tok_text (Cite ds)))
        by (simpl; rewrite length_app; simpl; lia).
      by rewrite take_app_length.
    + rewrite flatten_cons, (app_assoc pre). apply IH; [done|].
      rewrite length_app. cbn [tok_text]. rewrite length_cons, length_app.
      simpl. by replace (length pre + S (length ds + 1))
               with (length pre + (length ds + 2)) by lia.
Qed.

Lemma finditer_substring text m :
  m ∈ finditer text →
  substring text (m_start m) (m_end m) = lbracket :: m_group1 m ++ [rbracket]
  ∧ numeral (m_group1 m).
Proof.
  rewrite finditer_tokens. intros Hm.
  rewrite <- (flatten_tokenize text) at 1.
  apply (tok_matches_substring [] (tokenize text) m); [|done].
  apply scanned_tokenize_at.
Qed.

Lemma tok_matches_separated pos toks :
  StronglySorted (λ a b, m_end a ≤ m_start b) (tok_matches pos toks)
  ∧ Forall (λ a, pos ≤ m_start a) (tok_matches pos toks).
Proof.
  revert pos.
  induction toks as [|[c|ds] rest IH]; intros pos; cbn [tok_matches].
  - split; constructor.
  - destruct (IH (S pos)) as [IH1 IH2]. split; [done|].
    eapply Forall_impl; [exact IH2|]. simpl; lia.
  - destruct (IH (pos + (length ds + 2))) as [IH1 IH2]. split.
    + constructor; [done|].
      eapply Forall_impl; [exact IH2|]. simpl; lia.
    + constructor; [simpl; lia|].
      eapply Forall_impl; [exact IH2|]. simpl; lia.
Qed.


(** X2. The citations that [extract_citations] returns come in text order
    and do not overlap: a citation ends no later than a later one starts. *)
Theorem extract_citations_in_order_disjoint (text : list ascii) :
  ∃ cits,
    extract_citations text = Some cits
    ∧ ∀ i j a b, i < j → cits !! i = Some a → cits !! j = Some b →
        ∃ e s, endIndex a = Some e ∧ startIndex b = Some s ∧ (e ≤ s)%Z.
Proof.
  exists (cit_of_match text <$> finditer text).
  split; [apply extract_citations_eq|].
  intros i j a b Hij. rewrite !list_lookup_fmap.
  destruct (finditer text !! i) as [m|] eqn:Hm; [|done].
  destruct (finditer text !! j) as [m'|] eqn:Hm'; [|done].
  intros [= <-] [= <-].
  exists (Z.of_nat (m_end m)), (Z.of_nat (m_start m')).
  split_and!; [done | done |]. apply inj_le.
  rewrite finditer_tokens in Hm, Hm'.
  by apply (StronglySorted_lookup _ _ i j m m'
              (proj1 (tok_matches_separated 0 (tokenize text)))).
Qed.

Lemma skip_space_stops full_text s q c :
  s ≤ q → full_text !! q = Some c → isspace c = false →
  skip_space full_text s ≤ q.
Proof.
  intros Hsq Hq Hc.
  destruct (skip_space_spec full_text s) as (_ & _ & H3 & _).
  destruct (decide (skip_space full_text s ≤ q)) as [|Hgt]; [done|].
  rewrite (H3 q c) in Hc; [done | lia | done].
Qed.

(** X3. The snippet span of every scanned citation contains its bracket
    and lies within the text:
    [snippetStartIndex <= startIndex < endIndex <= snippetEndIndex <= len(text)]. *)
Theorem extract_citations_snippet_contains_bracket (text : list ascii) :
  ∃ cits,
    extract_citations text = Some cits
    ∧ ∀ c, c ∈ cits →
        ∃ ss s e se,
          snippetStartIndex c = Some ss ∧ startIndex c = Some s
          ∧ endIndex c = Some e ∧ snippetEndIndex c = Some se
          ∧ (0 ≤ ss ≤ s)%Z ∧ (s < e)%Z ∧ (e ≤ se)%Z
          ∧ (se ≤ Z.of_nat (length text))%Z.
Proof.
  exists (cit_of_match text <$> finditer text).
  split; [apply extract_citations_eq|].
  intros c (m & -> & Hm)%list_elem_of_fmap.
  destruct (finditer_bounds _ _ Hm) as [He Hle].
  pose proof (finditer_lbracket _ _ Hm) as Hlb.
  eexists _, _, _, _. split_and!; try reflexivity; try lia.
  - apply inj_le.
    destruct (scan_back_is_Some text (m_start m)) as [ss Hss]; [lia|].
    rewrite Hss. cbn.
    apply scan_back_spec in Hss as [(p & c & Hp & Hc & Hend & _ & ->)|[_ ->]];
      [|lia].
    assert (p ≠ m_start m) as Hne.
    { intros ->. rewrite Hlb in Hc. by injection Hc as <-. }
    apply (skip_space_stops _ _ _ lbracket); [lia | done | done].
  - apply inj_le. unfold scan_fwd. lia.
  - apply inj_le.
    destruct (scan_fwd_spec text (m_end m) Hle)
      as [(p & c & _ & _ & _ & _ & Hse & _)|[_ ->]]; lia.
Qed.

(** X4. A text that lacks an opening bracket, a closing bracket or a digit
    has no citation: the scanner returns the empty list. *)
Theorem extract_citations_none (text : list ascii) :
  lbracket ∉ text ∨ rbracket ∉ text ∨ Forall (λ c, is_digit c = false) text →
  extract_citations text = Some [].
Proof.
  intros Hno. rewrite extract_citations_eq.
  destruct (finditer text) as [|m ms] eqn:Hms; [done|]. exfalso.
  assert (m ∈ finditer text) as Hm by (rewrite Hms; left).
  destruct (finditer_substring _ _ Hm) as [Hsub [Hne Hds]].
  assert (∀ c, c ∈ lbracket :: m_group1 m ++ [rbracket] → c ∈ text) as Hin.
  { intros c. rewrite <- Hsub. unfold substring.
    intros Hc. by apply (subseteq_drop (m_start m)), (subseteq_take _ _ _ Hc). }
  destruct Hno as [Hno|[Hno|Hno]].
  - apply Hno, Hin. left.
  - apply Hno, Hin. right. apply elem_of_app. right. left.
  - destruct (m_group1 m) as [|d ds] eqn:Hg; [done|].
    apply Forall_cons in Hds as [Hd _].
    rewrite Forall_forall in Hno.
    rewrite (Hno d) in Hd; [done|]. apply Hin. right. left.
Qed.

Lemma extract_citations_none_witness :
  extract_citations (chr "see [12 and 3") = Some [].
Proof.
  apply extract_citations_none. right. left.
  intros H. apply list_elem_of_In in H. vm_compute in H.
  repeat (destruct H as [H|H]; [discriminate H|]). exact H.
Defined.



(** ** The renumberer and the position-based pipeline *)

Lemma group_tok_matches_relabel pos toks reps :
  length reps = length (cite_values toks) →
  m_group1 <$> tok_matches pos (relabel toks reps) = reps.
Proof.
  revert pos reps. induction toks as [|[c|ds] rest IH]; intros pos reps.
  - by destruct reps.
  - cbn [relabel tok_matches cite_values]. apply IH.
  - destruct reps as [|r reps']; [done|].
    cbn [relabel tok_matches cite_values]. intros [= Hlen]. cbn.
    f_equal. by apply IH.
Qed.

Lemma groups_renumbered text :
  m_group1 <$> finditer (renumbered_text text)
  = str_of_Z <$> assign ∅ 1%Z (cite_values (tokenize text)).
Proof.
  rewrite finditer_tokens, tokenize_renumbered.
  apply group_tok_matches_relabel. by rewrite length_fmap, length_assign.
Qed.

Lemma renumbered_citation_bracket text c :
  c ∈ renumbered_citations text →
  ∃ s e,
    startIndex c = Some (Z.of_nat s) ∧ endIndex c = Some (Z.of_nat e)
    ∧ s < e ≤ length (renumbered_text text)
    ∧ substring (renumbered_text text) s e = bracketed (index c).
Proof.
  intros [i Hi]%list_elem_of_lookup_1.
  pose proof Hi as (r & _ & _ & Hnew)%renumbered_citation_at.
  unfold renumbered_citations in Hi.
  apply lookup_zip_with_Some in Hi as (l & u & -> & Hl & Hu).
  rewrite list_lookup_fmap in Hu.
  destruct (finditer (renumbered_text text) !! i) as [m|] eqn:Hm; [|done].
  injection Hu as <-.
  pose proof (f_equal (.!! i) (groups_renumbered text)) as Hg.
  cbn beta in Hg. rewrite !list_lookup_fmap, Hm, Hnew in Hg.
  injection Hg as Hg.
  apply list_elem_of_lookup_2 in Hm.
  destruct (finditer_bounds _ _ Hm) as [He Hle].
  destruct (finditer_substring _ _ Hm) as [Hsub _].
  exists (m_start m), (m_end m). split_and!; [done | done | lia | done |].
  rewrite Hsub, Hg. reflexivity.
Qed.

(** X6. In the text that [reassign_citations_in_order] returns for a
    scanned text, the characters from [startIndex] to [endIndex] of every
    returned citation are exactly the token "[index]" of that citation. *)
Theorem reassign_offsets_locate_new_brackets (text : list ascii) :
  ∃ cits new_text out,
    extract_citations text = Some cits
    ∧ reassign_citations_in_order text cits = Some (new_text, out)
    ∧ ∀ c, c ∈ out →
        ∃ s e,
          startIndex c = Some (Z.of_nat s) ∧ endIndex c = Some (Z.of_nat e)
          ∧ s < e ≤ length new_text
          ∧ substring new_text s e = bracketed (index c).
Proof.
  exists (cit_of_match text <$> finditer text),
         (renumbered_text text), (renumbered_citations text).
  split; [apply extract_citations_eq|].
  split; [apply reassign_scanned|].
  apply renumbered_citation_bracket.
Qed.

Lemma sub_at_tokens repl r skip l :
  (∀ ds, Cite ds ∈ tokenize_at skip l → repl ds = Some (r ds)) →
  sub_at repl skip l = Some (sub_toks r (tokenize_at skip l)).
Proof.
  revert skip. induction l as [|c tl IH]; intros [|k] Hrepl; try done.
  - cbn [sub_at tokenize_at] in *.
    destruct (match_here (c :: tl)) as [ds|].
    + rewrite (Hrepl ds) by left. cbn.
      rewrite (IH (S (length ds))); [done|].
      intros ds' Hds'. apply Hrepl. by right.
    + rewrite (IH 0); [done|].
      intros ds' Hds'. apply Hrepl. by right.
  - cbn [sub_at tokenize_at] in *. by apply IH.
Qed.

Lemma sub_toks_relabel_const x toks reps :
  sub_toks (λ _, x) (relabel toks reps) = sub_toks (λ _, x) toks.
Proof.
  revert reps. induction toks as [|[c|ds] rest IH]; intros reps; [done| |].
  - cbn [relabel]. unfold sub_toks in *. cbn. by rewrite IH.
  - destruct reps as [|r reps']; [done|].
    cbn [relabel]. unfold sub_toks in *. cbn. by rewrite IH.
Qed.

(** X7. Renumbering changes nothing outside the brackets: deleting every
    bracket reference ([pattern.sub] with an empty replacement) from the
    text that [reassign_citations_in_order] returns and from the original
    text gives the same string. *)
Theorem reassign_keeps_text_outside_brackets (text : list ascii) :
  ∃ cits new_text out stripped,
    extract_citations text = Some cits
    ∧ reassign_citations_in_order text cits = Some (new_text, out)
    ∧ sub_at (λ _, Some []) 0 text = Some stripped
    ∧ sub_at (λ _, Some []) 0 new_text = Some stripped.
Proof.
  exists (cit_of_match text <$> finditer text),
         (renumbered_text text), (renumbered_citations text),
         (sub_toks (λ _, []) (tokenize text)).
  split; [apply extract_citations_eq|].
  split; [apply reassign_scanned|].
  split; [by apply sub_at_tokens|].
  rewrite (sub_at_tokens _ (λ _, [])) by done.
  fold (tokenize (renumbered_text text)).
  by rewrite tokenize_renumbered, sub_toks_relabel_const.
Qed.

(** ** The positional mapper on every input *)

Lemma source_citation_span obj cit :
  span_of (source_citation obj cit) = span_of cit.
Proof. by destruct obj, cit. Qed.

Lemma map_citation_to_source_spec aggregated cit :
  map_citation_to_source (flat_source_list aggregated) cit
  = Some match flat_source_list aggregated !! Z.to_nat (index cit - 1) with
         | Some (obj, _) =>
             if decide (1 ≤ index cit)%Z then source_citation obj cit else cit
         | None => cit
         end.
Proof.
  destruct (decide (index cit - 1 < 0
                    ∨ index cit - 1
                      >= Z.of_nat (length (flat_source_list aggregated)))%Z)
    as [Hout|Hin].
  - rewrite map_citation_to_source_out_of_range by done.
    destruct (flat_source_list aggregated !! Z.to_nat (index cit - 1))
      as [[obj st]|] eqn:Hl; [|done].
    rewrite decide_False; [done|].
    apply lookup_lt_Some in Hl. lia.
  - destruct (lookup_lt_is_Some_2 (flat_source_list aggregated)
                (Z.to_nat (index cit - 1))) as [[obj stype] Hl]; [lia|].
    pose proof (list_elem_of_lookup_2 _ _ _ Hl) as ->%flat_source_list_tagged.
    rewrite (map_citation_to_source_in_range _ _ obj) by (done || lia).
    rewrite Hl. by rewrite decide_True by lia.
Qed.

(** X8. [map_citations_to_sources] raises nothing on any input and
    returns one citation per input citation, in order, each with the
    [index], [rawIndex], offsets and snippet offsets of the input
    citation. *)
Theorem map_citations_to_sources_keeps_spans
    (citations : list Citation) (aggregated : AggregateSearchResult) :
  ∃ out,
    map_citations_to_sources citations aggregated = Some out
    ∧ length out = length citations
    ∧ span_of <$> out = span_of <$> citations.
Proof.
  unfold map_citations_to_sources.
  eexists. split; [apply mapM_total; intros c _; apply map_citation_to_source_spec|].
  split; [by rewrite length_fmap|].
  rewrite <- list_fmap_compose. apply list_fmap_ext. intros _ c _. cbn.
  destruct (flat_source_list aggregated !! Z.to_nat (index c - 1))
    as [[obj st]|]; [|done].
  destruct (decide (1 ≤ index c)%Z); [apply source_citation_span | done].
Qed.

Lemma map_citations_to_sources_eq citations aggregated :
  map_citations_to_sources citations aggregated
  = Some ((λ cit,
             match flat_source_list aggregated !! Z.to_nat (index cit - 1) with
             | Some (obj, _) =>
                 if decide (1 ≤ index cit)%Z then source_citation obj cit
                 else cit
             | None => cit
             end) <$> citations).
Proof.
  unfold map_citations_to_sources.
  apply mapM_total. intros c _. apply map_citation_to_source_spec.
Qed.

(** X9. [map_citations_to_sources] binds bracket numbers to sources by
    position in category order: a citation with index k >= 1 is bound to
    the k-th chunk result when there are at least k of them, and otherwise
    to the graph, web or context-document result found by counting on
    through the graph, web and context-document results, in that order;
    the copy carries the category as [sourceType] and the fields of that
    result. *)
Theorem map_citations_to_sources_binds_in_category_order
    (citations : list Citation) (aggregated : AggregateSearchResult)
    (i : nat) (cit : Citation) :
  citations !! i = Some cit → (1 ≤ index cit)%Z →
  ∃ out c',
    map_citations_to_sources citations aggregated = Some out
    ∧ out !! i = Some c'
    ∧ let k := Z.to_nat (index cit - 1) in
      let chunks := items_of (chunk_search_results aggregated) in
      let graphs := items_of (graph_search_results aggregated) in
      let webs := items_of (web_search_results aggregated) in
      let docs := items_of (context_document_results aggregated) in
      (∀ c, chunks !! k = Some c →
         sourceType c' = Some "chunk"%string
         ∧ cit_id c' = Some (uuid_str (chunk_id c))
         ∧ document_id c' = Some (uuid_str (chunk_document_id c))
         ∧ owner_id c' = uuid_str <$> chunk_owner_id c
         ∧ collection_ids c' = Some (uuid_str <$> chunk_collection_ids c)
         ∧ score c' = chunk_score c
         ∧ text c' = Some (chunk_text c)
         ∧ metadata c' = chunk_metadata c)
      ∧ (∀ g, length chunks ≤ k → graphs !! (k - length chunks) = Some g →
           sourceType c' = Some "graph"%string
           ∧ score c' = graph_score g
           ∧ metadata c'
             = match graph_content g with
               | Some ct =>
                   <["graphContent"%string := model_dump ct]> (graph_metadata g)
               | None => graph_metadata g
               end)
      ∧ (∀ w, length chunks + length graphs ≤ k →
           webs !! (k - length chunks - length graphs) = Some w →
           sourceType c' = Some "web"%string
           ∧ metadata c' = web_metadata (web_link w) (web_title w) (web_position w))
      ∧ (∀ d, length chunks + length graphs + length webs ≤ k →
           docs !! (k - length chunks - length graphs - length webs) = Some d →
           sourceType c' = Some "contextDoc"%string
           ∧ metadata c' = context_metadata (ctx_document d) (ctx_chunks d)).
Proof.
  intros Hi Hge. rewrite map_citations_to_sources_eq.
  eexists _, _. split; [done|].
  split; [by rewrite list_lookup_fmap, Hi|].
  cbn zeta. unfold flat_source_list.
  set (k := Z.to_nat (index cit - 1)).
  split_and!.
  - intros c Hc.
    rewrite lookup_app_l by (rewrite length_fmap; by eapply lookup_lt_Some).
    rewrite list_lookup_fmap, Hc. cbn.
    rewrite decide_True by done. by destruct cit.
  - intros g Hk Hg.
    rewrite lookup_app_r by (by rewrite length_fmap).
    rewrite lookup_app_l
      by (rewrite !length_fmap; by eapply lookup_lt_Some).
    rewrite list_lookup_fmap, length_fmap, Hg. cbn.
    rewrite decide_True by done. by destruct cit.
  - intros w Hk Hw.
    rewrite lookup_app_r by (rewrite length_fmap; lia).
    rewrite lookup_app_r by (rewrite !length_fmap; lia).
    rewrite lookup_app_l
      by (rewrite !length_fmap; apply lookup_lt_Some in Hw; lia).
    rewrite list_lookup_fmap, !length_fmap, Hw. cbn.
    rewrite decide_True by done. by destruct cit.
  - intros d Hk Hd.
    rewrite lookup_app_r by (rewrite length_fmap; lia).
    rewrite lookup_app_r by (rewrite !length_fmap; lia).
    rewrite lookup_app_r by (rewrite !length_fmap; lia).
    rewrite list_lookup_fmap, !length_fmap, Hd. cbn.
    rewrite decide_True by done. by destruct cit.
Qed.

Lemma map_citations_to_sources_binds_in_category_order_witness :
  let chunk := mkChunk (mkUUID "c1") (mkUUID "d1") None [] None "text" ∅ in
  let web := mkWeb "link" "title" "snippet" 1 in
  let aggregated := mkAggregate (Some [chunk]) None (Some [web]) None in
  ∃ out c',
    map_citations_to_sources [Citation_new 2] aggregated = Some out
    ∧ out !! 0 = Some c'
    ∧ sourceType c' = Some "web"%string
    ∧ metadata c' = web_metadata "link" "title" 1.
Proof.
  intros chunk web aggregated.
  destruct (map_citations_to_sources_binds_in_category_order
              [Citation_new 2] aggregated 0 (Citation_new 2) eq_refl)
    as (out & c' & Hout & Hc' & _ & _ & Hweb & _); [simpl; lia|].
  exists out, c'. split; [exact Hout|]. split; [exact Hc'|].
  apply (Hweb web); [simpl; lia | reflexivity].
Defined.



(** ** The aggregator-based pipeline: numbering and text *)

Lemma insert_unique_sorted x l :
  StronglySorted Z.lt l → StronglySorted Z.lt (insert_unique x l).
Proof.
  induction 1 as [|y l Hl IH Hy]; simpl; [repeat constructor|].
  destruct (x <? y)%Z eqn:Hlt.
  - apply Z.ltb_lt in Hlt. constructor; [by constructor|].
    constructor; [done|]. eapply Forall_impl; [exact Hy|]. simpl; lia.
  - apply Z.ltb_ge in Hlt. destruct (x =? y)%Z eqn:Heq; [by constructor|].
    apply Z.eqb_neq in Heq. constructor; [done|].
    apply Forall_forall. intros z [->|Hz]%insert_unique_elem; [lia|].
    rewrite Forall_forall in Hy. by apply Hy.
Qed.

Lemma sorted_set_sorted l : StronglySorted Z.lt (sorted_set l).
Proof.
  induction l as [|x l IH]; [constructor|].
  unfold sorted_set in *. cbn [foldr]. by apply insert_unique_sorted.
Qed.

Lemma enumerate_map_notin i l (m : gmap Z Z) k :
  k ∉ l → enumerate_map i l m !! k = m !! k.
Proof.
  revert i m. induction l as [|x l IH]; intros i m Hk; [done|].
  apply not_elem_of_cons in Hk as [Hne Hk]. simpl.
  rewrite IH by done. by apply lookup_insert_ne.
Qed.

Lemma enumerate_map_lookup i l (m : gmap Z Z) p k :
  StronglySorted Z.lt l → l !! p = Some k →
  enumerate_map i l m !! k = Some (i + Z.of_nat p)%Z.
Proof.
  intros Hl. revert i m p.
  induction Hl as [|x l Hl IH Hx]; intros i m p; [done|].
  destruct p as [|p]; simpl.
  - intros [= ->]. rewrite enumerate_map_notin.
    + rewrite lookup_insert_eq. f_equal. lia.
    + intros Hin. rewrite Forall_forall in Hx. specialize (Hx _ Hin). lia.
  - intros Hp. rewrite (IH _ _ p) by done. f_equal. lia.
Qed.


Lemma tok_matches_nil_flatten r pos toks :
  tok_matches pos toks = [] → sub_toks r toks = flatten toks.
Proof.
  revert pos. induction toks as [|[c|ds] rest IH]; intros pos; [done| |done].
  cbn [tok_matches]. intros Hnil. unfold sub_toks, flatten in *. cbn.
  f_equal. by eapply IH.
Qed.

Lemma sub_toks_relabel (f : Z → Z) toks :
  sub_toks (λ ds, bracketed (f (Z.of_N (int_of_digits ds)))) toks
  = flatten (relabel toks (str_of_Z <$> (f <$> cite_values toks))).
Proof.
  induction toks as [|[c|ds] rest IH]; [done| |].
  - cbn [cite_values relabel]. rewrite flatten_cons. cbn [tok_text].
    rewrite <- IH. reflexivity.
  - cbn [cite_values relabel fmap list_fmap]. rewrite flatten_cons.
    cbn [tok_text]. rewrite <- IH. reflexivity.
Qed.

(** What the pipeline returns, for every input: the brackets numbered by
    the rank of their value, one citation per bracket. *)
Lemma finalize_with_collector_eq raw_text collector :
  let old_to_new :=
    enumerate_map 1%Z (sorted_set (cite_values (tokenize raw_text))) ∅ in
  let rank r := default 0%Z (old_to_new !! r) in
  finalize_citations_with_collector raw_text collector
  = Some (flatten (relabel (tokenize raw_text)
                     (str_of_Z <$> (rank <$> cite_values (tokenize raw_text)))),
          (λ m, let r := Z.of_N (int_of_digits (m_group1 m)) in
                occurrence_citation (get_all_results collector) r (rank r)
                  (m_start m) (m_end m)) <$> finditer raw_text).
Proof.
  intros old_to_new rank. rewrite <- (sub_toks_relabel rank).
  unfold finalize_citations_with_collector.
  destruct raw_text as [|c0 tl]; [done|].
  set (raw_text := c0 :: tl) in *.
  destruct (finditer raw_text) as [|m ms] eqn:Hms.
  { rewrite finditer_tokens in Hms.
    by rewrite (tok_matches_nil_flatten _ _ _ Hms), flatten_tokenize. }
  rewrite <- Hms.
  rewrite <- !list_fmap_compose.
  assert (fst ∘ fst
            ∘ (λ m0 : Match,
                 (Z.of_N (int_of_digits (m_group1 m0)), m_start m0, m_end m0))
          <$> finditer raw_text
          = cite_values (tokenize raw_text)) as ->.
  { rewrite <- raw_finditer. by apply list_fmap_ext. }
  fold old_to_new.
  assert (∀ r, r ∈ cite_values (tokenize raw_text) →
               old_to_new !! r = Some (rank r)) as Hdom.
  { intros r Hr. unfold rank.
    destruct (enumerate_map_is_Some 1%Z
                (sorted_set (cite_values (tokenize raw_text))) ∅ r) as [v Hv].
    { left. by apply sorted_set_elem. }
    fold old_to_new in Hv. by rewrite Hv. }
  rewrite (mapM_total _
             (λ occ : Z * nat * nat,
                occurrence_citation (get_all_results collector)
                  occ.1.1 (rank occ.1.1) occ.1.2 occ.2)).
  2:{ intros occ [m' [-> Hm']]%list_elem_of_fmap. simpl.
      rewrite Hdom; [reflexivity|].
      rewrite <- raw_finditer. apply list_elem_of_fmap. eauto. }
  cbn [mbind option_bind].
  rewrite (sub_at_tokens _ (λ ds, bracketed (rank (Z.of_N (int_of_digits ds))))).
  2:{ intros ds Hds%cite_in_values. by rewrite (Hdom _ Hds). }
  cbn [mbind option_bind]. fold (tokenize raw_text).
  by rewrite <- list_fmap_compose.
Qed.



Lemma rank_of_raw raws r :
  r ∈ raws →
  ∃ p, sorted_set raws !! p = Some r
       ∧ enumerate_map 1%Z (sorted_set raws) ∅ !! r = Some (1 + Z.of_nat p)%Z.
Proof.
  intros [p Hp]%sorted_set_elem%list_elem_of_lookup_1.
  exists p. split; [done|].
  by apply enumerate_map_lookup; [apply sorted_set_sorted|].
Qed.


Lemma ranks_ge_1 raws :
  Forall (λ v, (1 ≤ v)%Z)
    ((λ r, default 0%Z (enumerate_map 1%Z (sorted_set raws) ∅ !! r)) <$> raws).
Proof.
  apply Forall_fmap, Forall_forall. intros r Hr. simpl.
  destruct (rank_of_raw raws r Hr) as (p & _ & ->). simpl. lia.
Qed.

(** X12. The text that the aggregator-based pipeline returns agrees with
    its citations bracket by bracket: scanning it finds one bracket per
    citation, in order, holding the decimal form of that citation's
    [index]; and outside the brackets it is the raw text (deleting every
    bracket reference from both gives the same string). *)
Theorem finalize_with_collector_text_agrees
    (raw_text : list ascii) (collector : SearchResultsCollector) :
  ∃ relabeled_text final_citations stripped,
    finalize_citations_with_collector raw_text collector
    = Some (relabeled_text, final_citations)
    ∧ m_group1 <$> finditer relabeled_text
      = (λ c, str_of_Z (index c)) <$> final_citations
    ∧ sub_at (λ _, Some []) 0 raw_text = Some stripped
    ∧ sub_at (λ _, Some []) 0 relabeled_text = Some stripped.
Proof.
  eexists _, _, (sub_toks (λ _, []) (tokenize raw_text)).
  split; [apply finalize_with_collector_eq|].
  set (raws := cite_values (tokenize raw_text)).
  set (rank := λ r, default 0%Z (enumerate_map 1%Z (sorted_set raws) ∅ !! r)).
  set (reps := str_of_Z <$> (rank <$> raws)).
  assert (tokenize (flatten (relabel (tokenize raw_text) reps))
          = relabel (tokenize raw_text) reps) as Htok.
  { apply tokenize_flatten, scanned_relabel; [apply scanned_tokenize_at|].
    apply Forall_fmap.
    eapply Forall_impl; [apply (ranks_ge_1 raws)|].
    intros v Hv. simpl in *. rewrite str_of_Z_nonneg by lia.
    apply str_of_N_numeral. }
  split_and!.
  - rewrite finditer_tokens, Htok.
    rewrite group_tok_matches_relabel
      by (unfold reps; by rewrite !length_fmap).
    unfold reps. rewrite <- !list_fmap_compose.
    unfold raws. rewrite <- (raw_finditer raw_text), <- !list_fmap_compose.
    fold raws. apply list_fmap_ext. intros i m _. cbn [compose].
    by destruct (occurrence_citation_offsets (get_all_results collector)
                   (Z.of_N (int_of_digits (m_group1 m)))
                   (rank (Z.of_N (int_of_digits (m_group1 m))))
                   (m_start m) (m_end m)) as (-> & _).
  - by apply sub_at_tokens.
  - rewrite (sub_at_tokens _ (λ _, [])) by done.
    fold (tokenize (flatten (relabel (tokenize raw_text) reps))).
    by rewrite Htok, sub_toks_relabel_const.
Qed.

(** ** The two lookups by aggregator index *)

Lemma fold_aggregator_map_app (ledger : list LedgerEntry) (entry : LedgerEntry)
    (m0 : gmap Z (string * SourceObj)) :
  fold_left (λ aggregator_map '(stype, obj, agg_idx),
               <[agg_idx := (stype, obj)]> aggregator_map)
    (ledger ++ [entry]) m0
  = <[entry.2 := entry.1]>
      (fold_left (λ aggregator_map '(stype, obj, agg_idx),
                    <[agg_idx := (stype, obj)]> aggregator_map) ledger m0).
Proof. rewrite fold_left_app. by destruct entry as [[st o] a]. Qed.

(** X13. The aggregator-index map of [map_citations_to_collector] binds an
    index to the last ledger entry that carries it (a later assignment
    overwrites an earlier one), whereas the search loop of
    [finalize_citations_with_collector] stops at the first: the map lookup
    is the search over the reversed ledger. *)
Theorem aggregator_map_binds_last_entry
    (ledger : list LedgerEntry) (old_ref : Z) :
  build_aggregator_map ledger !! old_ref
  = find_aggregator_item (reverse ledger) old_ref.
Proof.
  unfold build_aggregator_map.
  induction ledger as [|[[st o] a] rest IH] using rev_ind; [done|].
  rewrite fold_aggregator_map_app, reverse_snoc. cbn.
  destruct (decide (a = old_ref)) as [->|Hne].
  - by rewrite lookup_insert_eq.
  - by rewrite lookup_insert_ne.
Qed.

Lemma find_aggregator_item_notin ledger old_ref :
  old_ref ∉ ledger.*2 → find_aggregator_item ledger old_ref = None.
Proof.
  induction ledger as [|[[st o] a] rest IH]; [done|].
  cbn. intros [Hne Hin]%not_elem_of_cons.
  rewrite decide_False by done. by apply IH.
Qed.

Lemma find_aggregator_item_snoc ledger st o a old_ref :
  a ∉ ledger.*2 →
  find_aggregator_item (ledger ++ [(st, o, a)]) old_ref
  = if decide (a = old_ref) then Some (st, o)
    else find_aggregator_item ledger old_ref.
Proof.
  intros Hnotin. induction ledger as [|[[st' o'] a'] rest IH]; [done|].
  cbn in *. apply not_elem_of_cons in Hnotin as [Hne Hnotin].
  destruct (decide (a' = old_ref)) as [->|Hne'].
  - by rewrite decide_False.
  - by apply IH.
Qed.

(** X14. When no two ledger entries carry the same aggregator index, the
    map lookup of [map_citations_to_collector] and the search loop of
    [finalize_citations_with_collector] find the same entry for every
    reference. *)
Theorem aggregator_lookups_agree (ledger : list LedgerEntry) (old_ref : Z) :
  NoDup ledger.*2 →
  build_aggregator_map ledger !! old_ref
  = find_aggregator_item ledger old_ref.
Proof.
  unfold build_aggregator_map.
  induction ledger as [|[[st o] a] rest IH] using rev_ind; [done|].
  rewrite fmap_app. intros [Hrest [Hdisj _]]%NoDup_app.
  rewrite fold_aggregator_map_app, find_aggregator_item_snoc.
  - cbn. destruct (decide (a = old_ref)) as [->|Hne].
    + by rewrite lookup_insert_eq.
    + rewrite lookup_insert_ne by done. by apply IH.
  - intros Hin. apply (Hdisj _ Hin). cbn. left.
Qed.

Lemma aggregator_lookups_agree_witness :
  let a : LedgerEntry := ("web"%string, WebObj (mkWeb "la" "ta" "sa" 1), 4%Z) in
  let b : LedgerEntry := ("web"%string, WebObj (mkWeb "lb" "tb" "sb" 2), 7%Z) in
  build_aggregator_map [a; b] !! 7%Z = find_aggregator_item [a; b] 7%Z.
Proof.
  intros a b. apply (aggregator_lookups_agree [a; b] 7%Z).
  simpl. apply NoDup_cons. split; [|apply NoDup_singleton].
  intros Hin%list_elem_of_singleton. discriminate Hin.
Defined.

(** ** Reordering the collector: raising and dropping *)

Lemma reorder_step_positive old_list nl c :
  (1 ≤ index c ≤ Z.of_nat (length nl))%Z →
  ∃ nl1,
    reorder_step old_list nl c = Some nl1
    ∧ length nl1 = length nl
    ∧ (∀ k e, nl !! k = Some (Some e) → nl1 !! k = Some (Some e))
    ∧ (∀ k e, nl1 !! k = Some (Some e) →
         nl !! k = Some (Some e) ∨ e ∈ old_list).
Proof.
  intros Hidx. unfold reorder_step.
  destruct (rawIndex c) as [r|]; [|exists nl; split_and!; auto].
  destruct (decide (r = 0%Z)); [exists nl; split_and!; auto|].
  destruct (decide (r - 1 < 0 ∨ r - 1 >= Z.of_nat (length old_list))%Z)
    as [|Hin]; [exists nl; split_and!; auto|].
  rewrite py_index_in_range by lia.
  set (k := Z.to_nat (index c - 1)).
  destruct (lookup_lt_is_Some_2 nl k) as [slot Hslot]; [lia|].
  destruct (lookup_lt_is_Some_2 old_list (Z.to_nat (r - 1))) as [item Hitem];
    [lia|].
  cbn. rewrite Hslot. cbn.
  destruct slot as [e0|]; [exists nl; split_and!; auto|].
  rewrite Hitem. cbn. exists (<[k := Some item]> nl).
  split_and!; [done | by rewrite length_insert | |].
  - intros k' e Hk'. rewrite list_lookup_insert_ne; [done|].
    intros <-. congruence.
  - intros k' e. destruct (decide (k = k')) as [<-|Hne].
    + rewrite list_lookup_insert_eq by lia. intros [= <-].
      right. by eapply list_elem_of_lookup_2.
    + rewrite list_lookup_insert_ne by done. by left.
Qed.

Lemma reorder_loop_positive old_list new_list rest :
  (∀ c, c ∈ rest → (1 ≤ index c ≤ Z.of_nat (length new_list))%Z) →
  ∃ nl',
    reorder_loop old_list new_list rest = Some nl'
    ∧ length nl' = length new_list
    ∧ (∀ k e, new_list !! k = Some (Some e) → nl' !! k = Some (Some e))
    ∧ (∀ k e, nl' !! k = Some (Some e) →
         new_list !! k = Some (Some e) ∨ e ∈ old_list).
Proof.
  revert new_list. induction rest as [|c rest IH]; intros nl Hidx.
  { exists nl. split_and!; auto. }
  destruct (reorder_step_positive old_list nl c (Hidx c ltac:(left)))
    as (nl1 & Hstep & Hlen1 & Hkeep1 & Hfrom1).
  destruct (IH nl1) as (nl' & Hloop & Hlen & Hkeep & Hfrom).
  { intros c' Hc'. rewrite Hlen1. apply Hidx. by right. }
  exists nl'. cbn [reorder_loop]. rewrite Hstep. cbn.
  split_and!; [done | congruence | by auto |].
  intros k e [Hk|?]%Hfrom; [|by right]. by apply Hfrom1.
Qed.

Lemma elem_of_omap_id {A} (l : list (option A)) e :
  e ∈ omap id l ↔ Some e ∈ l.
Proof.
  rewrite list_elem_of_omap. split.
  - intros (x & Hx & Hid). unfold id in Hid. by subst x.
  - intros He. by exists (Some e).
Qed.

Lemma length_omap_id {A} (l : list (option A)) :
  length (omap id l) ≤ length l.
Proof.
  induction l as [|[x|] l IH]; [done| |].
  - change (S (length (omap id l)) ≤ S (length l)). lia.
  - change (length (omap id l) ≤ S (length l)). lia.
Qed.

(** X15. When every final citation has an index from 1 on,
    [reorder_collector_to_match_final_brackets] raises nothing, whatever
    the raw references are; the new ledger has at most as many entries as
    the largest index, and each of them is an entry of the old ledger: the
    function invents nothing. *)
Theorem reorder_returns_old_entries
    (collector : SearchResultsCollector) (final_citations : list Citation) :
  (∀ c, c ∈ final_citations → (1 ≤ index c)%Z) →
  ∃ collector',
    reorder_collector_to_match_final_brackets collector final_citations
    = Some collector'
    ∧ length (get_all_results collector')
      ≤ Z.to_nat (max_index_of final_citations)
    ∧ ∀ e, e ∈ get_all_results collector' → e ∈ get_all_results collector.
Proof.
  intros Hpos. unfold reorder_collector_to_match_final_brackets.
  set (old := get_all_results collector).
  set (M := max_index_of final_citations).
  destruct (reorder_loop_positive old (replicate (Z.to_nat M) None)
              final_citations) as (nl' & Hloop & Hlen & _ & Hfrom).
  { intros c Hc. rewrite length_replicate.
    pose proof (max_index_of_ge _ _ Hc). pose proof (Hpos c Hc).
    fold M in H. lia. }
  rewrite Hloop. cbn. eexists. split; [done|].
  unfold get_all_results at 1 2. cbn [_results_in_order].
  rewrite length_replicate in Hlen. split.
  - rewrite <- Hlen. apply length_omap_id.
  - intros e [k Hk]%elem_of_omap_id%list_elem_of_lookup_1.
    destruct (Hfrom _ _ Hk) as [Hinit|He]; [|done].
    by apply lookup_replicate in Hinit as [? _].
Qed.

Lemma reorder_returns_old_entries_witness :
  let a : LedgerEntry := ("web"%string, WebObj (mkWeb "la" "ta" "sa" 1), 1%Z) in
  let cit :=
    mkCitation 2 (Some 9%Z) None None None None None None None None None None
      None ∅ in
  ∃ collector',
    reorder_collector_to_match_final_brackets (mkCollector [a]) [cit]
    = Some collector'
    ∧ length (get_all_results collector') ≤ 2
    ∧ ∀ e, e ∈ get_all_results collector' →
        e ∈ get_all_results (mkCollector [a]).
Proof.
  intros a cit.
  apply (reorder_returns_old_entries (mkCollector [a]) [cit]).
  intros c Hc%list_elem_of_singleton. subst c. simpl. lia.
Defined.

Lemma reorder_loop_unusable old_list new_list rest :
  (∀ c r, c ∈ rest → rawIndex c = Some r →
     (r ≤ 0 ∨ Z.of_nat (length old_list) < r)%Z) →
  reorder_loop old_list new_list rest = Some new_list.
Proof.
  induction rest as [|c rest IH]; intros Hun; [done|].
  cbn [reorder_loop].
  assert (reorder_step old_list new_list c = Some new_list) as ->.
  { unfold reorder_step. destruct (rawIndex c) as [r|] eqn:Hr; [|done].
    destruct (decide (r = 0%Z)); [done|].
    rewrite decide_True; [done|].
    destruct (Hun c r ltac:(left) Hr); lia. }
  cbn. apply IH. intros c' r Hc'. apply Hun. by right.
Qed.

Lemma omap_id_replicate_None {A} n : omap id (replicate n (@None A)) = [].
Proof. induction n; [done|]. by cbn. Qed.

(** X16. When no final citation has a usable raw reference (each
    [rawIndex] is unset, at most 0, or beyond the ledger), and in
    particular when the list of final citations is empty,
    [reorder_collector_to_match_final_brackets] empties the ledger of the
    collector. *)
Theorem reorder_without_usable_reference_empties
    (collector : SearchResultsCollector) (final_citations : list Citation) :
  (∀ c r, c ∈ final_citations → rawIndex c = Some r →
     (r ≤ 0 ∨ Z.of_nat (length (get_all_results collector)) < r)%Z) →
  reorder_collector_to_match_final_brackets collector final_citations
  = Some (mkCollector []).
Proof.
  intros Hun. unfold reorder_collector_to_match_final_brackets.
  rewrite reorder_loop_unusable by done. cbn.
  by rewrite omap_id_replicate_None.
Qed.

Lemma reorder_without_usable_reference_empties_witness :
  let a : LedgerEntry := ("web"%string, WebObj (mkWeb "la" "ta" "sa" 1), 1%Z) in
  let cit :=
    mkCitation 1 (Some 5%Z) None None None None None None None None None None
      None ∅ in
  reorder_collector_to_match_final_brackets (mkCollector [a]) [cit]
  = Some (mkCollector []).
Proof.
  intros a cit.
  apply (reorder_without_usable_reference_empties (mkCollector [a]) [cit]).
  intros c r Hc%list_elem_of_singleton Hr. subst c.
  injection Hr as <-. right. simpl. lia.
Defined.

Lemma fold_max_index_le rest m0 b :
  (m0 ≤ b)%Z → (∀ c, c ∈ rest → (index c ≤ b)%Z) →
  (fold_left (λ m c', Z.max m (index c')) rest m0 ≤ b)%Z.
Proof.
  revert m0. induction rest as [|c' rest IH]; intros m0 Hm Hall; [done|].
  simpl. apply IH.
  - pose proof (Hall c' ltac:(left)). lia.
  - intros c Hc. apply Hall. by right.
Qed.

Lemma max_index_of_le cits b :
  (0 ≤ b)%Z → (∀ c, c ∈ cits → (index c ≤ b)%Z) → (max_index_of cits ≤ b)%Z.
Proof.
  destruct cits as [|c0 rest]; [done|]. intros _ Hall.
  apply fold_max_index_le; [apply Hall; left|].
  intros c Hc. apply Hall. by right.
Qed.

Lemma reorder_loop_empty_raises old_list rest :
  (∃ c r, c ∈ rest ∧ rawIndex c = Some r
          ∧ (1 ≤ r ≤ Z.of_nat (length old_list))%Z) →
  reorder_loop old_list [] rest = None.
Proof.
  induction rest as [|c rest IH]; intros (c0 & r0 & Hc0 & Hr0 & Hrange).
  { by apply elem_of_nil in Hc0. }
  cbn [reorder_loop].
  destruct (reorder_step old_list [] c) as [nl|] eqn:Hstep; [|done].
  cbn. unfold reorder_step in Hstep.
  assert (nl = [] ∧ (rawIndex c = Some r0 → False)) as [-> Hne].
  { destruct (rawIndex c) as [r|]; [|by injection Hstep as <-].
    destruct (decide (r = 0%Z)) as [->|Hr].
    { injection Hstep as <-. split; [done|]. intros [= <-]. lia. }
    destruct (decide (r - 1 < 0 ∨ r - 1 >= Z.of_nat (length old_list))%Z)
      as [Hout|Hin].
    { injection Hstep as <-. split; [done|]. intros [= <-]. lia. }
    unfold py_index in Hstep. simpl in Hstep.
    rewrite decide_False in Hstep by lia.
    rewrite decide_False in Hstep by lia. done. }
  apply IH. exists c0, r0. split; [|done].
  apply elem_of_cons in Hc0 as [->|?]; [by destruct Hne | done].
Qed.

(** X17. When no final citation has a positive index and one of them has
    a raw reference within 1..len(ledger),
    [reorder_collector_to_match_final_brackets] raises (IndexError): the
    new list is empty and [new_list[new_idx - 1]] is evaluated. *)
Theorem reorder_raises_without_positive_index
    (collector : SearchResultsCollector) (final_citations : list Citation) :
  (∀ c, c ∈ final_citations → (index c ≤ 0)%Z) →
  (∃ c r, c ∈ final_citations ∧ rawIndex c = Some r
          ∧ (1 ≤ r ≤ Z.of_nat (length (get_all_results collector)))%Z) →
  reorder_collector_to_match_final_brackets collector final_citations = None.
Proof.
  intros Hnonpos Husable. unfold reorder_collector_to_match_final_brackets.
  pose proof (max_index_of_le final_citations 0 ltac:(lia) Hnonpos) as Hmax.
  replace (Z.to_nat (max_index_of final_citations)) with 0 by lia.
  cbn [replicate]. by rewrite reorder_loop_empty_raises.
Qed.

Lemma reorder_raises_without_positive_index_witness :
  let a : LedgerEntry := ("web"%string, WebObj (mkWeb "la" "ta" "sa" 1), 1%Z) in
  let cit :=
    mkCitation 0 (Some 1%Z) None None None None None None None None None None
      None ∅ in
  reorder_collector_to_match_final_brackets (mkCollector [a]) [cit] = None.
Proof.
  intros a cit.
  apply (reorder_raises_without_positive_index (mkCollector [a]) [cit]).
  - intros c Hc%list_elem_of_singleton. subst c. simpl. lia.
  - exists cit, 1%Z. split; [left|]. split; [reflexivity | simpl; lia].
Defined.

Lemma last_omap_id {A} (l : list (option A)) e :
  last l = Some (Some e) → last (omap id l) = Some e.
Proof.
  intros Hl. apply last_Some in Hl as [l' ->].
  rewrite omap_app. cbn. apply last_snoc.
Qed.

(** X18. A citation with index 0 does not raise when some other citation
    has a positive index: [new_list[-1]] is the last position.  When it
    comes first and has a usable raw reference, its item takes the last
    position of the new ledger, whatever citation carries the largest
    index. *)
Theorem reorder_index_zero_takes_last_position
    (collector : SearchResultsCollector) (c0 : Citation)
    (rest : list Citation) (r0 : Z) :
  index c0 = 0%Z → rawIndex c0 = Some r0 →
  (1 ≤ r0 ≤ Z.of_nat (length (get_all_results collector)))%Z →
  rest ≠ [] → (∀ c, c ∈ rest → (1 ≤ index c)%Z) →
  ∃ collector',
    reorder_collector_to_match_final_brackets collector (c0 :: rest)
    = Some collector'
    ∧ last (get_all_results collector')
      = get_all_results collector !! Z.to_nat (r0 - 1).
Proof.
  intros Hidx Hraw Hrange Hne Hpos.
  unfold reorder_collector_to_match_final_brackets.
  set (old := get_all_results collector) in *.
  set (M := max_index_of (c0 :: rest)).
  assert (∀ c, c ∈ rest → (1 ≤ index c ≤ M)%Z) as Hbound.
  { intros c Hc. split; [by apply Hpos|].
    apply max_index_of_ge. by right. }
  assert (1 ≤ M)%Z as HM.
  { destruct rest as [|c1 rest']; [done|].
    destruct (Hbound c1 ltac:(left)). lia. }
  destruct (lookup_lt_is_Some_2 old (Z.to_nat (r0 - 1))) as [item Hitem];
    [lia|].
  set (n := Z.to_nat M).
  assert (reorder_step old (replicate n None) c0
          = Some (<[n - 1 := Some item]> (replicate n None))) as Hstep.
  { unfold reorder_step. rewrite Hraw, Hidx.
    rewrite decide_False by lia. rewrite decide_False by lia.
    unfold py_index. rewrite length_replicate.
    rewrite decide_False by lia. rewrite decide_True by lia.
    replace (Z.to_nat (Z.of_nat n + (0 - 1))) with (n - 1) by lia.
    cbn. rewrite lookup_replicate_2 by lia. cbn. by rewrite Hitem. }
  destruct (reorder_loop_positive old (<[n - 1 := Some item]> (replicate n None))
              rest) as (nl' & Hloop & Hlen & Hkeep & _).
  { intros c Hc. rewrite length_insert, length_replicate.
    destruct (Hbound c Hc). lia. }
  cbn [reorder_loop]. rewrite Hstep. cbn [mbind option_bind].
  rewrite Hloop. cbn. eexists. split; [done|].
  unfold get_all_results at 1. cbn [_results_in_order].
  rewrite Hitem. apply last_omap_id.
  rewrite length_insert, length_replicate in Hlen.
  rewrite last_lookup, Hlen.
  replace (pred n) with (n - 1) by lia.
  apply Hkeep. apply list_lookup_insert_eq. rewrite length_replicate. lia.
Qed.

Lemma reorder_index_zero_takes_last_position_witness :
  let a : LedgerEntry := ("web"%string, WebObj (mkWeb "la" "ta" "sa" 1), 1%Z) in
  let b : LedgerEntry := ("web"%string, WebObj (mkWeb "lb" "tb" "sb" 2), 2%Z) in
  let cit i r :=
    mkCitation i (Some r) None None None None None None None None None None
      None ∅ in
  ∃ collector',
    reorder_collector_to_match_final_brackets (mkCollector [a; b])
      [cit 0%Z 1%Z; cit 1%Z 2%Z]
    = Some collector'
    ∧ last (get_all_results collector')
      = get_all_results (mkCollector [a; b]) !! Z.to_nat (1 - 1).
Proof.
  intros a b cit.
  apply (reorder_index_zero_takes_last_position (mkCollector [a; b])
           (cit 0%Z 1%Z) [cit 1%Z 2%Z] 1%Z).
  - reflexivity.
  - reflexivity.
  - simpl. lia.
  - discriminate.
  - intros c Hc%list_elem_of_singleton. subst c. simpl. lia.
Defined.

(** ** Version strings *)




Lemma all_but_last_snoc (p : list ascii) c : all_but_last (p ++ [c]) = p.
Proof.
  unfold all_but_last. rewrite length_app. simpl.
  replace (length p + 1 - 1) with (length p) by lia.
  by rewrite take_app_length.
Qed.

Lemma increment_version_snoc p c :
  increment_version (p ++ [c])
  = (if is_digit c then Some (p ++ str_of_Z (Z.of_N (digit_of c) + 1)) else None).
Proof.
  unfold increment_version, int_of_char.
  rewrite all_but_last_snoc, last_snoc. cbn.
  by destruct (is_digit c).
Qed.

Lemma decrement_version_snoc p c :
  decrement_version (p ++ [c])
  = (if is_digit c
     then Some (p ++ str_of_Z (Z.max 0 (Z.of_N (digit_of c) - 1)))
     else None).
Proof.
  unfold decrement_version, int_of_char.
  rewrite all_but_last_snoc, last_snoc. cbn.
  by destruct (is_digit c).
Qed.

(** X19. [increment_version] and [decrement_version] raise exactly on
    the empty string (IndexError) and on a string whose last character is
    not a decimal digit (ValueError); only the last character is read. *)
Theorem version_functions_raise_iff (version : list ascii) :
  (increment_version version = None
   ↔ ∀ c, last version = Some c → is_digit c = false)
  ∧ (decrement_version version = None
     ↔ ∀ c, last version = Some c → is_digit c = false).
Proof.
  destruct version as [|c0 tl] using rev_ind.
  - split; (split; [by intros _ c | done]).
  - rewrite increment_version_snoc, decrement_version_snoc, last_snoc.
    destruct (is_digit c0) eqn:Hd; split; split; try done.
    + intros Hall. specialize (Hall c0 eq_refl). congruence.
    + intros Hall. specialize (Hall c0 eq_refl). congruence.
    + by intros _ c [= <-].
    + by intros _ c [= <-].
Qed.





(** X22. On a version that ends in 9, [increment_version] writes "10" in
    place of the 9 without touching the digits before it (so "v19" becomes
    "v110"), and [decrement_version] does not undo it: it leaves the new
    version, which ends in 0, as it is. *)
Theorem increment_version_at_nine (prefix : list ascii) :
  increment_version (prefix ++ chr "9") = Some (prefix ++ chr "10")
  ∧ decrement_version (prefix ++ chr "10") = Some (prefix ++ chr "10").
Proof.
  split.
  - change (chr "9") with ["9"%char]. by rewrite increment_version_snoc.
  - change (chr "10") with (["1"%char] ++ ["0"%char]).
    rewrite app_assoc. by rewrite decrement_version_snoc.
Qed.

(** X23. [decrement_version] never goes below 0: a version that ends in 0
    is returned unchanged. *)
Theorem decrement_version_floor (prefix : list ascii) :
  decrement_version (prefix ++ chr "0") = Some (prefix ++ chr "0").
Proof.
  change (chr "0") with ["0"%char]. by rewrite decrement_version_snoc.
Qed.

(** ** Dictionary merge *)

Lemma dict_get_set_eq k v d : dict_get k (dict_set k v d) = Some v.
Proof.
  induction d as [|[k' v'] rest IH]; simpl.
  - by rewrite String.eqb_refl.
  - destruct (String.eqb_spec k k') as [->|Hne]; simpl.
    + by rewrite String.eqb_refl.
    + by destruct (String.eqb_spec k k').
Qed.

Lemma dict_get_set_ne k k' v d :
  k ≠ k' → dict_get k (dict_set k' v d) = dict_get k d.
Proof.
  intros Hne. induction d as [|[k0 v0] rest IH]; simpl.
  - by destruct (String.eqb_spec k k').
  - destruct (String.eqb_spec k' k0) as [->|Hne0]; simpl.
    + by destruct (String.eqb_spec k k0).
    + by destruct (String.eqb_spec k k0).
Qed.

Lemma dict_get_None k d : k ∉ d.*1 → dict_get k d = None.
Proof.
  induction d as [|[k' v'] rest IH]; [done|]. simpl.
  intros [Hne Hin]%not_elem_of_cons.
  destruct (String.eqb_spec k k'); [done | by apply IH].
Qed.

Lemma deep_update_with_cons k v' rest updated_mapping :
  deep_update_with (PDict ((k, v') :: rest)) updated_mapping
  = deep_update_with (PDict rest)
      (dict_set k
         match dict_get k updated_mapping, v' with
         | Some (PDict d), PDict _ => PDict (deep_update_with v' d)
         | _, _ => v'
         end
         updated_mapping).
Proof. reflexivity. Qed.

Lemma deep_update_with_lookup updating_mapping updated_mapping k :
  NoDup updating_mapping.*1 →
  dict_get k (deep_update_with (PDict updating_mapping) updated_mapping)
  = match dict_get k updating_mapping with
    | None => dict_get k updated_mapping
    | Some v =>
        match dict_get k updated_mapping, v with
        | Some (PDict d), PDict _ => Some (PDict (deep_update_with v d))
        | _, _ => Some v
        end
    end.
Proof.
  revert updated_mapping.
  induction updating_mapping as [|[k0 v0] rest IH]; intros um; [done|].
  rewrite fmap_cons. intros [Hnotin Hnd]%NoDup_cons.
  rewrite deep_update_with_cons, IH by done. cbn [dict_get].
  destruct (String.eqb_spec k k0) as [->|Hne].
  - rewrite (dict_get_None k0 rest) by done.
    rewrite dict_get_set_eq.
    destruct (dict_get k0 um) as [[| | | | |d]|]; try done.
    by destruct v0.
  - by rewrite dict_get_set_ne.
Qed.

(** X24. The lookup law of [deep_update] for one updating mapping: a key
    that the update lacks keeps the value of [mapping]; a key that the
    update has takes the update's value, except that when both values are
    dictionaries the result is their recursive merge. *)
Theorem deep_update_lookup
    (mapping updating_mapping : list (string * PyVal)) (k : string) :
  NoDup updating_mapping.*1 →
  dict_get k (deep_update mapping [updating_mapping])
  = match dict_get k updating_mapping with
    | None => dict_get k mapping
    | Some v =>
        match dict_get k mapping, v with
        | Some (PDict d), PDict u => Some (PDict (deep_update d [u]))
        | _, _ => Some v
        end
    end.
Proof.
  intros Hnd. unfold deep_update. cbn [fold_left].
  rewrite deep_update_with_lookup by done.
  destruct (dict_get k updating_mapping) as [v|]; [|done].
  destruct (dict_get k mapping) as [[| | | | |d]|]; try done.
  by destruct v.
Qed.

Lemma deep_update_lookup_witness :
  let mapping :=
    [("a"%string, PDict [("x"%string, PInt 1)]); ("b"%string, PInt 2)] in
  let updating_mapping :=
    [("a"%string, PDict [("y"%string, PInt 3)]); ("c"%string, PInt 4)] in
  dict_get "a" (deep_update mapping [updating_mapping])
  = Some (PDict [("x"%string, PInt 1); ("y"%string, PInt 3)]).
Proof.
  intros mapping updating_mapping.
  rewrite (deep_update_lookup mapping updating_mapping "a").
  - reflexivity.
  - simpl. apply NoDup_cons. split; [|apply NoDup_singleton].
    intros Hin%list_elem_of_singleton. discriminate Hin.
Defined.

Lemma dict_set_keys k v d :
  (dict_set k v d).*1 = if decide (k ∈ d.*1) then d.*1 else d.*1 ++ [k].
Proof.
  induction d as [|[k' v'] rest IH]; [done|]. simpl.
  destruct (String.eqb_spec k k') as [->|Hne].
  - rewrite decide_True by left. done.
  - rewrite fmap_cons, IH. cbn [fst].
    destruct (decide (k ∈ rest.*1)) as [Hin|Hnotin].
    + rewrite decide_True by (by right). done.
    + rewrite decide_False; [done|].
      intros [?|?]%elem_of_cons; done.
Qed.

Lemma filter_ext_in {A} (P Q : A → Prop) `{!∀ x, Decision (P x)}
    `{!∀ x, Decision (Q x)} (l : list A) :
  (∀ x, x ∈ l → P x ↔ Q x) → filter P l = filter Q l.
Proof.
  induction l as [|x l IH]; intros Hl; [done|].
  rewrite !filter_cons.
  destruct (decide (P x)) as [HP|HP], (decide (Q x)) as [HQ|HQ].
  - f_equal. apply IH. intros y Hy. apply Hl. by right.
  - destruct HQ. by apply (Hl x ltac:(left)).
  - destruct HP. by apply (Hl x ltac:(left)).
  - apply IH. intros y Hy. apply Hl. by right.
Qed.

(** X25. The keys of [deep_update] for one updating mapping, in order:
    the keys of [mapping] keep their positions, and the keys that only the
    update has follow in the order of the update. *)
Theorem deep_update_keys (mapping updating_mapping : list (string * PyVal)) :
  NoDup updating_mapping.*1 →
  (deep_update mapping [updating_mapping]).*1
  = mapping.*1 ++ filter (λ k, k ∉ mapping.*1) updating_mapping.*1.
Proof.
  unfold deep_update. cbn [fold_left]. revert mapping.
  induction updating_mapping as [|[k0 v0] rest IH]; intros um.
  { intros _. cbn. by rewrite app_nil_r. }
  rewrite fmap_cons. intros [Hnotin Hnd]%NoDup_cons.
  rewrite deep_update_with_cons, IH by done.
  rewrite dict_set_keys. cbn [fst]. rewrite filter_cons.
  destruct (decide (k0 ∈ um.*1)) as [Hin|Hout].
  - by rewrite decide_False by (by intros ?).
  - rewrite decide_True by done. rewrite <- app_assoc. f_equal. cbn. f_equal.
    apply filter_ext_in. intros k Hk.
    rewrite elem_of_app, list_elem_of_singleton.
    split; [tauto|]. intros Hkum [?| ->]; [done | by apply Hnotin].
Qed.

Lemma deep_update_keys_witness :
  let mapping :=
    [("a"%string, PDict [("x"%string, PInt 1)]); ("b"%string, PInt 2)] in
  let updating_mapping :=
    [("c"%string, PInt 4); ("a"%string, PDict [("y"%string, PInt 3)])] in
  (deep_update mapping [updating_mapping]).*1
  = mapping.*1 ++ filter (λ k, k ∉ mapping.*1) updating_mapping.*1.
Proof.
  intros mapping updating_mapping.
  apply (deep_update_keys mapping updating_mapping).
  simpl. apply NoDup_cons. split; [|apply NoDup_singleton].
  intros Hin%list_elem_of_singleton. discriminate Hin.
Defined.

(** ** Identifiers *)

Lemma replace_char_idem old new s :
  new ≠ old →
  replace_char old new (replace_char old new s) = replace_char old new s.
Proof.
  intros Hne. induction s as [|c rest IH]; [done|]. cbn. rewrite IH. f_equal.
  destruct (Ascii.eqb_spec c old) as [->|Hc].
  - by destruct (Ascii.eqb_spec new old).
  - by destruct (Ascii.eqb_spec c old).
Qed.

(** X26. [generate_document_id] does not tell a slash from an underscore
    in the file name: for the same user, a file name and the file name with
    every "/" replaced by "_" get the same document id. *)
Theorem generate_document_id_slash_collision
    (uuid5_dns : string → UUID) (filename : string) (user_id : UUID) :
  generate_document_id uuid5_dns (replace_char "/" "_" filename) user_id
  = generate_document_id uuid5_dns filename user_id.
Proof.
  unfold generate_document_id. cbn zeta.
  by rewrite replace_char_idem.
Qed.

(** ** The aggregator mapper on a consistent ledger *)

Lemma fill_from_collector_span stype obj cit c' :
  fill_from_collector stype obj cit = Some c' → span_of c' = span_of cit.
Proof.
  unfold fill_from_collector.
  destruct (String.eqb stype "chunk");
    [destruct obj; [|done..]; intros [= <-]; by destruct cit|].
  destruct (String.eqb stype "graph");
    [destruct obj; try done; intros [= <-]; by destruct cit|].
  destruct (String.eqb stype "web");
    [destruct obj; try done; intros [= <-]; by destruct cit|].
  destruct (String.eqb stype "contextDoc");
    [destruct obj; try done; intros [= <-]; by destruct cit|].
  intros [= <-]. by destruct cit.
Qed.

Lemma map_citation_to_collector_span aggregator_map cit c' :
  map_citation_to_collector aggregator_map cit = Some c' →
  span_of c' = span_of cit.
Proof.
  unfold map_citation_to_collector.
  destruct (rawIndex cit ≫= (aggregator_map !!.)) as [[stype obj]|].
  - apply fill_from_collector_span.
  - intros [= <-]. by destruct cit.
Qed.

(** X27. On a collector whose ledger is consistently tagged (an entry
    tagged with one of the four category names holds an object of that
    category), [map_citations_to_collector] raises nothing and returns one
    citation per input citation, in order, each with the [index],
    [rawIndex], offsets and snippet offsets of the input citation. *)
Theorem map_citations_to_collector_keeps_spans
    (citations : list Citation) (collector : SearchResultsCollector) :
  Forall well_tagged (get_all_results collector) →
  ∃ out,
    map_citations_to_collector citations collector = Some out
    ∧ length out = length citations
    ∧ span_of <$> out = span_of <$> citations.
Proof.
  intros Hwt. unfold map_citations_to_collector.
  destruct (mapM_is_Some_2
              (map_citation_to_collector
                 (build_aggregator_map (get_all_results collector)))
              citations) as [out Hmap].
  { apply Forall_forall. intros c _. by apply map_citation_to_collector_total. }
  exists out. split; [done|].
  apply mapM_Some_1 in Hmap.
  split; [symmetry; by eapply Forall2_length|].
  induction Hmap as [|c c' cs out' Hstep _ IH]; [done|].
  rewrite !fmap_cons, IH. f_equal.
  by eapply map_citation_to_collector_span.
Qed.

Lemma map_citations_to_collector_keeps_spans_witness :
  let cit :=
    mkCitation 2 (Some 1%Z) (Some 4%Z) (Some 7%Z) None None None None None
      None None None None ∅ in
  let collector :=
    mkCollector [("web"%string, WebObj (mkWeb "l" "t" "s" 1), 1%Z)] in
  ∃ out,
    map_citations_to_collector [cit] collector = Some out
    ∧ length out = 1
    ∧ span_of <$> out = span_of <$> [cit].
Proof.
  intros cit collector.
  apply (map_citations_to_collector_keeps_spans [cit] collector).
  constructor; [intros _; reflexivity | constructor].
Defined.

(** X28. A citation whose raw reference hits a ledger entry tagged with
    a type other than the four category names takes that tag as
    [sourceType] and loses its metadata (the fallback branch assigns the
    empty dictionary), unlike a citation whose raw reference is absent from
    the ledger, which keeps it. *)
Theorem map_citations_to_collector_other_type
    (citations : list Citation) (collector : SearchResultsCollector)
    (i : nat) (cit : Citation) (r : Z) (stype : string) (obj : SourceObj) :
  Forall well_tagged (get_all_results collector) →
  citations !! i = Some cit →
  rawIndex cit = Some r →
  build_aggregator_map (get_all_results collector) !! r = Some (stype, obj) →
  stype ∉ ["chunk"; "graph"; "web"; "contextDoc"]%string →
  ∃ out,
    map_citations_to_collector citations collector = Some out
    ∧ out !! i = Some (set_metadata ∅ (set_sourceType (Some stype) cit)).
Proof.
  intros Hwt Hi Hr Hl Hother. unfold map_citations_to_collector.
  destruct (mapM_is_Some_2
              (map_citation_to_collector
                 (build_aggregator_map (get_all_results collector)))
              citations) as [out Hmap].
  { apply Forall_forall. intros c _. by apply map_citation_to_collector_total. }
  exists out. split; [done|].
  apply mapM_Some_1 in Hmap.
  destruct (Forall2_lookup_l _ _ _ _ _ Hmap Hi) as (c' & Hc' & Hstep).
  rewrite Hc'. f_equal.
  unfold map_citation_to_collector in Hstep. rewrite Hr in Hstep.
  cbn in Hstep. rewrite Hl in Hstep. unfold fill_from_collector in Hstep.
  destruct (String.eqb_spec stype "chunk") as [->|_];
    [exfalso; apply Hother; set_solver|].
  destruct (String.eqb_spec stype "graph") as [->|_];
    [exfalso; apply Hother; set_solver|].
  destruct (String.eqb_spec stype "web") as [->|_];
    [exfalso; apply Hother; set_solver|].
  destruct (String.eqb_spec stype "contextDoc") as [->|_];
    [exfalso; apply Hother; set_solver|].
  by injection Hstep as <-.
Qed.

Lemma map_citations_to_collector_other_type_witness :
  let cit :=
    mkCitation 1 (Some 3%Z) None None None None None None None None None None
      None (<["note"%string := PStr "dropped"]> ∅) in
  let obj := WebObj (mkWeb "l" "t" "s" 1) in
  let collector := mkCollector [("document"%string, obj, 3%Z)] in
  ∃ out,
    map_citations_to_collector [cit] collector = Some out
    ∧ out !! 0
      = Some (set_metadata ∅ (set_sourceType (Some "document"%string) cit)).
Proof.
  intros cit obj collector.
  apply (map_citations_to_collector_other_type [cit] collector 0 cit 3%Z
           "document"%string obj).
  - constructor; [|constructor]. intros Hin. exfalso.
    apply list_elem_of_In in Hin. simpl in Hin.
    repeat (destruct Hin as [Hin|Hin]; [discriminate Hin|]). exact Hin.
  - reflexivity.
  - reflexivity.
  - reflexivity.
  - intros Hin. apply list_elem_of_In in Hin. simpl in Hin.
    repeat (destruct Hin as [Hin|Hin]; [discriminate Hin|]). exact Hin.
Defined.

(** ** The stream renderer: empty output *)

(** X29. [format_search_results_for_stream] returns the empty string
    exactly when no category has an item (each one is None or an empty
    list), whatever the dictionary forms and [json.dumps] are. *)
Theorem stream_renderer_empty_iff
    (chunk_as_dict : ChunkSearchResult → PyVal)
    (graph_dict : GraphSearchResult → PyVal)
    (web_to_dict : WebSearchResult → PyVal)
    (context_to_dict : ContextDocumentResult → PyVal)
    (json_dumps : list PyVal → string)
    (results : AggregateSearchResult) :
  format_search_results_for_stream chunk_as_dict graph_dict web_to_dict
    context_to_dict json_dumps results = ""%string
  ↔ items_of (chunk_search_results results) = []
    ∧ items_of (graph_search_results results) = []
    ∧ items_of (web_search_results results) = []
    ∧ items_of (context_document_results results) = [].
Proof.
  unfold format_search_results_for_stream.
  destruct results as [[[|c cs]|] [[|g gs]|] [[|w ws]|] [[|d ds]|]];
    cbv;
    (split; [intros H; try discriminate H; by repeat split
            |intros (H1 & H2 & H3 & H4);
             try discriminate H1; try discriminate H2;
             try discriminate H3; try discriminate H4; reflexivity]).
Qed.

(** ** The aggregator-based pipeline followed by the reordering *)


